(** * Variable-order Markov-chain text generation with backoff

    A shallow embedding of the last three code cells of
    [TEXTGENERATIONMC.ipynb] ([collect_dict], [get_next_word] and
    [generate_text], the "Backoff" section of the notebook) together with
    the pieces of the Python runtime they rely on: insertion-ordered
    dictionaries, tuples used as dictionary keys, [str.join], [str.split],
    [str.replace] and [random.choice].

    Conventions of the embedding:
    - a token is a Python [str], here a [string]; a context is a tuple of
      tokens, here a [list string]; a character of a [str] is an [ascii],
      and what the Python library says of characters ([str.isupper]) is
      a parameter of the functions that ask it;
    - a [dict] is an association list in insertion order with at most one
      entry per key; the lists stored as values are only ever appended to;
    - a raised exception is the [Raise] outcome; the [while] loop of
      [generate_text] runs on fuel and [OutOfFuel] is shown unreachable;
    - the global random generator is an explicit random source that is
      threaded through the calls;
    - [nltk.word_tokenize] is external: [collect_dict] receives the token
      list [words] it would return. *)

From Stdlib Require Import List String Ascii Arith Bool Lia PeanoNat.
Import ListNotations.
Open Scope string_scope.
Open Scope list_scope.
Open Scope nat_scope.

(* ================================================================= *)
(** ** Outcomes of Python code *)

Inductive exn : Type :=
| KeyError
| IndexError
| ValueError.

Inductive result (A : Type) : Type :=
| Ok (a : A)
| Raise (e : exn)
| OutOfFuel.

Arguments Ok {A} a.
Arguments Raise {A} e.
Arguments OutOfFuel {A}.

Definition bind {A B : Type} (c : result A) (k : A -> result B) : result B :=
  match c with
  | Ok a => k a
  | Raise e => Raise e
  | OutOfFuel => OutOfFuel
  end.

Notation "x <- c ;; k" := (bind c (fun x => k))
  (at level 61, c at next level, right associativity).
Notation "' p <- c ;; k" := (bind c (fun p => k))
  (at level 61, p pattern, c at next level, right associativity).

(** A [for] loop over the list [l] whose body may raise. *)
Fixpoint for_each {A S : Type} (body : S -> A -> result S) (l : list A) (s : S)
  : result S :=
  match l with
  | [] => Ok s
  | x :: l' => s' <- body s x ;; for_each body l' s'
  end.

(** [seq[i]] for a non-negative index. *)
Definition subscript {A : Type} (l : list A) (i : nat) : result A :=
  match nth_error l i with
  | Some x => Ok x
  | None => Raise IndexError
  end.

(* ================================================================= *)
(** ** Insertion-ordered dictionaries *)

Section Dict.
Context {K V : Type}.
Variable K_eq_dec : forall x y : K, {x = y} + {x <> y}.

Definition dict : Type := list (K * V).

Definition keys (d : dict) : list K := map fst d.

(** [d.get(k)] *)
Fixpoint dict_get (k : K) (d : dict) : option V :=
  match d with
  | [] => None
  | (k', v) :: d' => if K_eq_dec k k' then Some v else dict_get k d'
  end.

(** [k in d] *)
Definition dict_mem (k : K) (d : dict) : bool :=
  match dict_get k d with Some _ => true | None => false end.

(** [d[k]], raising [KeyError] on a missing key *)
Definition dict_item (k : K) (d : dict) : result V :=
  match dict_get k d with
  | Some v => Ok v
  | None => Raise KeyError
  end.

(** The entry of [k] is rewritten in place by [f]; other entries and the
    order are untouched. *)
Fixpoint dict_modify (f : V -> V) (k : K) (d : dict) : dict :=
  match d with
  | [] => []
  | (k', v) :: d' =>
      if K_eq_dec k k' then (k', f v) :: d'
      else (k', v) :: dict_modify f k d'
  end.

(** [d[k] = v]: an existing key keeps its position, a new key goes last. *)
Definition dict_set (k : K) (v : V) (d : dict) : dict :=
  if dict_mem k d then dict_modify (fun _ => v) k d else d ++ [(k, v)].
End Dict.

Arguments dict : clear implicits.

(* ================================================================= *)
(** ** Strings *)

Definition space : ascii := " "%char.

(** [sep.join(l)] is [String.concat sep l]. *)
Definition join (sep : string) (l : list string) : string := String.concat sep l.

(** [s.split(sep)] for a one-character separator: every occurrence of the
    separator cuts, empty pieces are kept. *)
Fixpoint split (sep : ascii) (s : string) : list string :=
  match s with
  | EmptyString => [EmptyString]
  | String c s' =>
      if Ascii.eqb c sep then EmptyString :: split sep s'
      else match split sep s' with
           | w :: ws => String c w :: ws
           | [] => [String c EmptyString]
           end
  end.

(** [s.replace(old, new)] for a non-empty [old]: a scan from the left
    that, at each occurrence of [old], emits [new] and jumps over the
    occurrence.  [skip] counts the characters of a matched occurrence
    that are still to be jumped over. *)
Fixpoint replace_from (old new : string) (skip : nat) (s : string) : string :=
  match s with
  | EmptyString => EmptyString
  | String c s' =>
      match skip with
      | S k => replace_from old new k s'
      | O =>
          if String.prefix old s
          then (new ++ replace_from old new (String.length old - 1) s')%string
          else String c (replace_from old new 0 s')
      end
  end.

Definition replace (old new s : string) : string := replace_from old new 0 s.

(** [c.isupper()] for a one-character string is a function of the Python
    library, defined on all of Unicode.  The functions that call it take
    it as the parameter [isupper : ascii -> bool]; nothing is assumed of
    it, except where a statement says so.

    [ascii_isupper] is what it is on the ASCII characters, where the
    uppercase letters are [A] to [Z]; the examples run with it. *)
Definition ascii_isupper (c : ascii) : bool :=
  let n := nat_of_ascii c in (65 <=? n) && (n <=? 90).

(* ================================================================= *)
(** ** The random source *)

(** [rng t n] is what the [t]-th coming call of [_randbelow(n)] returns.
    It is reduced modulo [n], so that every function is a source. *)
Definition Rng : Type := nat -> nat -> nat.

Definition randbelow (rng : Rng) (n : nat) : nat := rng 0 n mod n.

Definition advance (rng : Rng) : Rng := fun t => rng (S t).

(** [random.choice(seq)]: [IndexError] on an empty sequence, otherwise
    [seq[_randbelow(len(seq))]]. *)
Definition random_choice {A : Type} (seq : list A) (rng : Rng) : result (A * Rng) :=
  match seq with
  | [] => Raise IndexError
  | _ :: _ =>
      x <- subscript seq (randbelow rng (List.length seq)) ;;
      Ok (x, advance rng)
  end.

(** The source that always picks the last candidate. *)
Definition pick_last : Rng := fun _ n => n - 1.

(** The source that always picks the first candidate. *)
Definition pick_first : Rng := fun _ _ => 0.

(* ================================================================= *)
(** ** The data model *)

Definition Token : Type := string.
Definition Key : Type := list Token.
Definition Table : Type := dict Key (list Token).
Definition Model : Type := dict nat Table.

Definition Key_eq_dec : forall x y : Key, {x = y} + {x <> y} :=
  list_eq_dec string_dec.

Definition table_get : Key -> Table -> option (list Token) := dict_get Key_eq_dec.
Definition table_mem : Key -> Table -> bool := dict_mem Key_eq_dec.
Definition model_get : nat -> Model -> option Table := dict_get Nat.eq_dec.

(** [words[i:i+j]] *)
Definition slice (words : list Token) (i j : nat) : Key := firstn j (skipn i words).

(* ================================================================= *)
(** ** [collect_dict] *)

(** The body of the inner loop, for one starting position [i]. *)
Definition collect_step (words : list Token) (n_grams j : nat)
  (sub_text_dict : Table) (i : nat) : result Table :=
  let key := slice words i j in
  if table_mem key sub_text_dict then
    w <- subscript words (i + n_grams) ;;
    Ok (dict_modify Key_eq_dec (fun l => l ++ [w]) key sub_text_dict)
  else
    w <- subscript words (i + n_grams) ;;
    Ok (dict_set Key_eq_dec key [w] sub_text_dict).

(** [for i in range(len(words)-n_grams)]: the range is empty when the
    difference is not positive, as with the truncated subtraction. *)
Definition collect_table (words : list Token) (n_grams j : nat) : result Table :=
  for_each (collect_step words n_grams j)
           (seq 0 (List.length words - n_grams)) [].

(** The body of the outer loop, for one order [j]. *)
Definition collect_order (words : list Token) (n_grams : nat)
  (text_dict : Model) (j : nat) : result Model :=
  sub_text_dict <- collect_table words n_grams j ;;
  Ok (dict_set Nat.eq_dec j sub_text_dict text_dict).

Definition collect_dict (words : list Token) (n_grams : nat) : result Model :=
  for_each (collect_order words n_grams) (seq 1 n_grams) [].

(* ================================================================= *)
(** ** [get_next_word] *)

(** One pass of the [for] loop either returns from the function or goes
    on with the key for the next pass. *)
Inductive pass (A : Type) : Type :=
| Return (r : result A)
| Continue (key_id : Key).

Arguments Return {A} r.
Arguments Continue {A} key_id.

Definition shorten (key_id : Key) : Key :=
  if 1 <? List.length key_id then skipn 1 key_id else key_id.

Definition backoff_pass (word_pairs : Model) (key_id : Key) (min_length : nat)
  (rng : Rng) : pass (Token * Rng) :=
  match model_get (List.length key_id) word_pairs with
  | None => Return (Raise KeyError)
  | Some table =>
      match table_get key_id table with
      | Some following =>
          if min_length <=? List.length following
          then Return (random_choice following rng)
          else Continue (shorten key_id)
      | None => Continue (shorten key_id)
      end
  end.

(** The statement after the loop. *)
Definition backoff_last (word_pairs : Model) (key_id : Key) (rng : Rng)
  : result (Token * Rng) :=
  table <- dict_item Nat.eq_dec (List.length key_id) word_pairs ;;
  following <- dict_item Key_eq_dec key_id table ;;
  random_choice following rng.

(** [passes] is the number of passes of the loop still to run. *)
Fixpoint backoff_loop (passes : nat) (word_pairs : Model) (key_id : Key)
  (min_length : nat) (rng : Rng) : result (Token * Rng) :=
  match passes with
  | O => backoff_last word_pairs key_id rng
  | S passes' =>
      match backoff_pass word_pairs key_id min_length rng with
      | Return r => r
      | Continue key_id' => backoff_loop passes' word_pairs key_id' min_length rng
      end
  end.

(** [range(len(key_id))] is evaluated once, with the key the function is
    called with.  [word_pairs] is the global the function reads. *)
Definition get_next_word (word_pairs : Model) (key_id : Key) (min_length : nat)
  (rng : Rng) : result (Token * Rng) :=
  backoff_loop (List.length key_id) word_pairs key_id min_length rng.

(** *** The dictionary accesses of [get_next_word] *)

(** What the search reads: the table of some order inside the loop, or in
    the statement after it. *)
Inductive access : Type :=
| Probe (order : nat)
| Fallback (order : nat).

Definition order_of (a : access) : nat :=
  match a with Probe k => k | Fallback k => k end.

Fixpoint backoff_trace (passes : nat) (word_pairs : Model) (key_id : Key)
  (min_length : nat) (rng : Rng) : list access * result (Token * Rng) :=
  match passes with
  | O => ([Fallback (List.length key_id)], backoff_last word_pairs key_id rng)
  | S passes' =>
      match backoff_pass word_pairs key_id min_length rng with
      | Return r => ([Probe (List.length key_id)], r)
      | Continue key_id' =>
          let (log, r) := backoff_trace passes' word_pairs key_id' min_length rng in
          (Probe (List.length key_id) :: log, r)
      end
  end.

Definition get_next_word_trace (word_pairs : Model) (key_id : Key)
  (min_length : nat) (rng : Rng) : list access * result (Token * Rng) :=
  backoff_trace (List.length key_id) word_pairs key_id min_length rng.

(* ================================================================= *)
(** ** [generate_text] *)

(** [len(i[0]) > 0 and i[0][0].isupper()] for a key [i]; [i[0]] raises on
    the empty tuple. *)
Definition capitalized (isupper : ascii -> bool) (i : Key) : result bool :=
  first <- subscript i 0 ;;
  match first with
  | EmptyString => Ok false
  | String c _ => Ok (isupper c)
  end.

Fixpoint filter_keys (isupper : ascii -> bool) (l : list Key)
  : result (list Key) :=
  match l with
  | [] => Ok []
  | i :: l' =>
      b <- capitalized isupper i ;;
      rest <- filter_keys isupper l' ;;
      Ok (if b then i :: rest else rest)
  end.

(** [max(words.keys())], a [ValueError] on the empty dictionary. *)
Definition max_key (words : Model) : result nat :=
  match keys words with
  | [] => Raise ValueError
  | k :: ks => Ok (fold_left Nat.max ks k)
  end.

(** [words[max(words.keys())]] *)
Definition top_table (words : Model) : result Table :=
  n <- max_key words ;;
  dict_item Nat.eq_dec n words.

Definition capitalized_keys (isupper : ascii -> bool) (words : Model)
  : result (list Key) :=
  table <- top_table words ;;
  filter_keys isupper (keys table).

(** The state of the [while] loop. *)
Record gen_state : Type := GenState {
  first_key : Key;
  markov_text : string;
  source : Rng
}.

Definition word_count (markov_text : string) : nat :=
  List.length (split space markov_text).

Fixpoint generate_loop (fuel : nat) (word_pairs : Model) (limit min_length : nat)
  (st : gen_state) : result gen_state :=
  if word_count (markov_text st) <? limit then
    match fuel with
    | O => OutOfFuel
    | S fuel' =>
        '(next_word, rng') <- get_next_word word_pairs (first_key st) min_length (source st) ;;
        generate_loop fuel' word_pairs limit min_length
          (GenState (skipn 1 (first_key st) ++ [next_word])
                    (markov_text st ++ " " ++ next_word)%string
                    rng')
    end
  else Ok st.

(** One round of the chained [replace] calls. *)
Definition attach (s : string) : string :=
  replace " ;" ";" (replace " ?" "?" (replace " !" "!" (replace " ," "," (replace " ." "." s)))).

(** [for i in ['.', '?', '!', ',']]: four rounds, the loop variable is not
    used. *)
Definition render (s : string) : string :=
  fold_left (fun text (_ : string) => attach text) ["."; "?"; "!"; ","] s.

(** The function up to the end of the [while] loop.  [word_pairs] is the
    global read by [get_next_word]; the notebook passes the same
    dictionary as [words]. *)
Definition generate_state (isupper : ascii -> bool) (word_pairs words : Model)
  (limit min_length : nat) (rng : Rng) : result gen_state :=
  capitalized_keys <- capitalized_keys isupper words ;;
  '(first_key, rng1) <- random_choice capitalized_keys rng ;;
  generate_loop limit word_pairs limit min_length
    (GenState first_key (join " " first_key) rng1).

Definition generate_text (isupper : ascii -> bool) (word_pairs words : Model)
  (limit min_length : nat) (rng : Rng) : result string :=
  st <- generate_state isupper word_pairs words limit min_length rng ;;
  Ok (render (markov_text st)).

(** The token sequence of a generated text, before the rendering. *)
Definition output_tokens (st : gen_state) : list Token :=
  split space (markov_text st).

Definition corpus9 : list Token := ["A"; "b"; "c"; "."; "A"; "b"; "d"; "."].

(** The two tables and the model that [collect_dict corpus9 2] returns. *)
Definition table9_1 : Table :=
  [(["A"], ["c"; "d"]); (["b"], ["."; "."]); (["c"], ["A"]); (["."], ["b"])].

Definition table9_2 : Table :=
  [(["A"; "b"], ["c"; "d"]); (["b"; "c"], ["."]); (["c"; "."], ["A"]);
   (["."; "A"], ["b"]); (["b"; "d"], ["."])].

Definition model9 : Model := [(1, table9_1); (2, table9_2)].

(* ================================================================= *)
(** ** The earlier cells of the notebook *)

(** Each cell redefines [collect_dict] and [generate_text]; a module per
    cell keeps the names. *)

(** *** "First-order Markov chain": the keys are words *)

Module FirstOrder.

Definition Chain : Type := dict string (list string).

(** The body of the loop, for one position [i]; [words[i]] is read once. *)
Definition collect_step (words : list string) (text_dict : Chain) (i : nat)
  : result Chain :=
  w <- subscript words i ;;
  if dict_mem string_dec w text_dict then
    n <- subscript words (i + 1) ;;
    Ok (dict_modify string_dec (fun l => l ++ [n]) w text_dict)
  else
    n <- subscript words (i + 1) ;;
    Ok (dict_set string_dec w [n] text_dict).

Definition collect_dict (corpus : string) : result Chain :=
  let words := split space corpus in
  for_each (collect_step words) (seq 0 (List.length words - 1)) [].

Record gen_state : Type := GenState {
  first_word : string;
  markov_text : string;
  source : Rng
}.

Fixpoint generate_loop (fuel : nat) (words : Chain) (limit : nat)
  (st : gen_state) : result gen_state :=
  if word_count (markov_text st) <? limit then
    match fuel with
    | O => OutOfFuel
    | S fuel' =>
        following <- dict_item string_dec (first_word st) words ;;
        '(next_word, rng') <- random_choice following (source st) ;;
        generate_loop fuel' words limit
          (GenState next_word (markov_text st ++ " " ++ next_word)%string rng')
    end
  else Ok st.

Definition generate_text (words : Chain) (limit : nat) (rng : Rng)
  : result string :=
  '(first_word, rng1) <- random_choice (keys words) rng ;;
  st <- generate_loop limit words limit (GenState first_word first_word rng1) ;;
  Ok (markov_text st).

End FirstOrder.

(** *** The same chain seeded at a capitalized word *)

Module Capitalized.

(** [len(i) > 0 and i[0].isupper()] for a word [i] *)
Definition capitalized (isupper : ascii -> bool) (i : string) : bool :=
  match i with
  | EmptyString => false
  | String c _ => isupper c
  end.

Definition generate_text (isupper : ascii -> bool) (words : FirstOrder.Chain)
  (limit : nat) (rng : Rng) : result string :=
  let capitalized_keys := filter (capitalized isupper) (keys words) in
  '(first_word, rng1) <- random_choice capitalized_keys rng ;;
  st <- FirstOrder.generate_loop limit words limit
          (FirstOrder.GenState first_word first_word rng1) ;;
  Ok (FirstOrder.markov_text st).

End Capitalized.

(** *** "Second-order Markov chain": the keys are pairs of words *)

Module SecondOrder.

(** The body of the loop, for one position [i]; the pair
    [(words[i], words[i+1])] is built once. *)
Definition collect_step (words : list Token) (text_dict : Table) (i : nat)
  : result Table :=
  a <- subscript words i ;;
  b <- subscript words (i + 1) ;;
  let key := [a; b] in
  if table_mem key text_dict then
    n <- subscript words (i + 2) ;;
    Ok (dict_modify Key_eq_dec (fun l => l ++ [n]) key text_dict)
  else
    n <- subscript words (i + 2) ;;
    Ok (dict_set Key_eq_dec key [n] text_dict).

(** The loop over the positions, for the list of words at hand. *)
Definition collect_words (words : list Token) : result Table :=
  for_each (collect_step words) (seq 0 (List.length words - 2)) [].

Definition collect_dict (corpus : string) : result Table :=
  collect_words (split space corpus).

Fixpoint generate_loop (fuel : nat) (words : Table) (limit : nat)
  (st : gen_state) : result gen_state :=
  if word_count (markov_text st) <? limit then
    match fuel with
    | O => OutOfFuel
    | S fuel' =>
        following <- dict_item Key_eq_dec (first_key st) words ;;
        '(next_word, rng') <- random_choice following (source st) ;;
        generate_loop fuel' words limit
          (GenState (skipn 1 (first_key st) ++ [next_word])
                    (markov_text st ++ " " ++ next_word)%string
                    rng')
    end
  else Ok st.

(** The function up to the end of the [while] loop. *)
Definition generate_state (isupper : ascii -> bool) (words : Table)
  (limit : nat) (rng : Rng) : result gen_state :=
  capitalized_keys <- filter_keys isupper (keys words) ;;
  '(first_key, rng1) <- random_choice capitalized_keys rng ;;
  generate_loop limit words limit
    (GenState first_key (join " " first_key) rng1).

Definition generate_text (isupper : ascii -> bool) (words : Table)
  (limit : nat) (rng : Rng) : result string :=
  st <- generate_state isupper words limit rng ;;
  Ok (markov_text st).

End SecondOrder.

(** *** "Tokenizing instead of splitting": tokens, and the rendering *)

Module Tokenized.

(** The loop of the second-order cell, on the tokens of the corpus. *)
Definition collect_dict (words : list Token) : result Table :=
  SecondOrder.collect_words words.

(** The [while] loop of the second-order cell, then the rendering. *)
Definition generate_text (isupper : ascii -> bool) (words : Table)
  (limit : nat) (rng : Rng) : result string :=
  st <- SecondOrder.generate_state isupper words limit rng ;;
  Ok (render (markov_text st)).

End Tokenized.

(** *** "Higher-order Markov chain": the keys are six tokens *)

Module SixGram.

Definition collect_step (words : list Token) (text_dict : Table) (i : nat)
  : result Table :=
  let key := slice words i 6 in
  if table_mem key text_dict then
    n <- subscript words (i + 6) ;;
    Ok (dict_modify Key_eq_dec (fun l => l ++ [n]) key text_dict)
  else
    n <- subscript words (i + 6) ;;
    Ok (dict_set Key_eq_dec key [n] text_dict).

Definition collect_dict (words : list Token) : result Table :=
  for_each (collect_step words) (seq 0 (List.length words - 6)) [].

End SixGram.

(* ================================================================= *)
(** ** Vocabulary of the statements *)

(** The starting positions among [ps] whose window of order [j] is the
    context [c], and the successors recorded for them. *)
Definition positions (words : list Token) (j : nat) (c : Key) (ps : list nat)
  : list nat :=
  filter (fun i => if Key_eq_dec (slice words i j) c then true else false) ps.

Definition followers (words : list Token) (n_grams j : nat) (c : Key)
  (ps : list nat) : list Token :=
  map (fun i => nth (i + n_grams) words EmptyString) (positions words j c ps).

(** The starting positions of the training windows. *)
Definition starts (words : list Token) (n_grams : nat) : list nat :=
  seq 0 (List.length words - n_grams).

(** What a list of successors becomes when [l] is appended to it. *)
Definition extend (o : option (list Token)) (l : list Token) : option (list Token) :=
  match o with
  | Some l0 => Some (l0 ++ l)
  | None => match l with [] => None | _ :: _ => Some l end
  end.

(** The trailing [k] tokens of a context. *)
Definition trailing (k : nat) (key_id : Key) : Key :=
  skipn (List.length key_id - k) key_id.

(** The context [c] is a key of the table of its order and has at least
    [min_length] recorded successors there. *)
Definition supported (word_pairs : Model) (min_length : nat) (c : Key) : Prop :=
  exists table following,
    model_get (List.length c) word_pairs = Some table /\
    table_get c table = Some following /\
    min_length <= List.length following.

(** The models whose tables of the orders [1..n] all exist. *)
Definition has_orders (word_pairs : Model) (n : nat) : Prop :=
  forall k, 1 <= k <= n -> exists table, model_get k word_pairs = Some table.

(** [s] begins with the character [c]. *)
Definition starts_with (c : ascii) (s : string) : bool :=
  match s with
  | EmptyString => false
  | String d _ => Ascii.eqb d c
  end.

(** [s] with every space that stands right before a [p] removed. *)
Fixpoint unspace (p : ascii) (s : string) : string :=
  match s with
  | EmptyString => EmptyString
  | String c rest =>
      if Ascii.eqb c space && starts_with p rest then unspace p rest
      else String c (unspace p rest)
  end.

(** Somewhere in [s] a space stands right before a [b]. *)
Fixpoint space_before (b : ascii) (s : string) : bool :=
  match s with
  | EmptyString => false
  | String c rest => (Ascii.eqb c space && starts_with b rest) || space_before b rest
  end.

(** A token without a space in it. *)
Fixpoint space_free (tok : string) : bool :=
  match tok with
  | EmptyString => true
  | String c rest => negb (Ascii.eqb c space) && space_free rest
  end.

(** A token as the tokenizer gives them: not empty and without a space. *)
Definition is_word (tok : Token) : bool :=
  match tok with
  | EmptyString => false
  | String _ _ => space_free tok
  end.

(** The first token of the key begins with an uppercase letter. *)
Definition starts_upper (isupper : ascii -> bool) (key : Key) : bool :=
  match key with
  | [] => false
  | EmptyString :: _ => false
  | String c _ :: _ => isupper c
  end.

(** No token recorded as a successor in the model has a space in it. *)
Definition clean_table (table : Table) : bool :=
  forallb (fun entry => forallb space_free (snd entry)) table.

Definition clean_model (word_pairs : Model) : bool :=
  forallb (fun entry => clean_table (snd entry)) word_pairs.

(** A text in which no space stands before a space or before one of the
    five marks. *)
Definition attached (s : string) : Prop :=
  space_before space s = false /\
  space_before "." s = false /\
  space_before "," s = false /\
  space_before "!" s = false /\
  space_before "?" s = false /\
  space_before ";" s = false.

(** The number of successors recorded in a table, over all its keys. *)
Definition total_successors (table : Table) : nat :=
  list_sum (map (fun entry => List.length (snd entry)) table).

(** The token [w] is among the successors recorded somewhere in the model. *)
Definition recorded (word_pairs : Model) (w : Token) : Prop :=
  exists k table c following,
    model_get k word_pairs = Some table /\
    table_get c table = Some following /\
    In w following.

(** [s] without its spaces. *)
Fixpoint squeeze (s : string) : string :=
  match s with
  | EmptyString => EmptyString
  | String c rest =>
      if Ascii.eqb c space then squeeze rest else String c (squeeze rest)
  end.

(** A first-order chain read as a table: each word becomes a key of one
    token. *)
Definition wrap_keys (d : FirstOrder.Chain) : Table :=
  map (fun entry => ([fst entry], snd entry)) d.

(** No key of the model is recorded with an empty list of successors. *)
Definition lists_nonempty (word_pairs : Model) : Prop :=
  forall k table c following,
    model_get k word_pairs = Some table ->
    table_get c table = Some following ->
    following <> [].

(* ================================================================= *)
(** ** Facts about dictionaries *)

Section DictFacts.
Context {K V : Type}.
Variable K_eq_dec : forall x y : K, {x = y} + {x <> y}.

Abbreviation get := (dict_get K_eq_dec).
Abbreviation modify := (dict_modify K_eq_dec).

Lemma dict_get_In (k : K) (d : dict K V) (v : V) :
  get k d = Some v -> In (k, v) d.
Proof.
  induction d as [|[k' v'] d IH]; simpl; [discriminate|].
  destruct (K_eq_dec k k') as [->|Hne].
  - intros [= ->]. now left.
  - intros H. right. auto.
Qed.

Lemma dict_get_keys (k : K) (d : dict K V) :
  In k (keys d) <-> exists v, get k d = Some v.
Proof.
  induction d as [|[k' v'] d IH]; simpl.
  - split; [tauto | intros [v Hv]; discriminate].
  - destruct (K_eq_dec k k') as [->|Hne].
    + split; eauto.
    + rewrite <- IH. split; [intros [H|H]; [congruence | exact H] | tauto].
Qed.

Lemma dict_get_None (k : K) (d : dict K V) :
  get k d = None <-> ~ In k (keys d).
Proof.
  rewrite dict_get_keys. split.
  - intros H [v Hv]. congruence.
  - intros H. destruct (get k d) eqn:E; [exfalso; eauto | reflexivity].
Qed.

Lemma dict_In_get (k : K) (v : V) (d : dict K V) :
  NoDup (keys d) -> In (k, v) d -> get k d = Some v.
Proof.
  induction d as [|[k' v'] d IH]; simpl; [tauto|].
  intros Hnd [H|H].
  - injection H as -> ->. destruct (K_eq_dec k k); [reflexivity | congruence].
  - inversion Hnd as [|? ? Hnotin Hnd']; subst.
    destruct (K_eq_dec k k') as [->|Hne]; [|auto].
    exfalso. apply Hnotin. change (In (fst (k', v)) (map fst d)).
    now apply in_map.
Qed.

Lemma keys_modify (f : V -> V) (k : K) (d : dict K V) :
  keys (modify f k d) = keys d.
Proof.
  induction d as [|[k' v'] d IH]; simpl; [reflexivity|].
  destruct (K_eq_dec k k'); simpl; [reflexivity | now rewrite IH].
Qed.

Lemma dict_get_modify (f : V -> V) (k k0 : K) (d : dict K V) :
  get k0 (modify f k d) =
  if K_eq_dec k0 k then option_map f (get k d) else get k0 d.
Proof.
  induction d as [|[k' v'] d IH]; simpl.
  - now destruct (K_eq_dec k0 k).
  - destruct (K_eq_dec k k') as [->|Hne]; simpl.
    + destruct (K_eq_dec k0 k'); reflexivity.
    + destruct (K_eq_dec k0 k') as [->|Hne0].
      * destruct (K_eq_dec k' k); [congruence | reflexivity].
      * exact IH.
Qed.

Lemma dict_get_app (k0 : K) (d e : dict K V) :
  get k0 (d ++ e) = match get k0 d with Some v => Some v | None => get k0 e end.
Proof.
  induction d as [|[k' v'] d IH]; simpl; [reflexivity|].
  destruct (K_eq_dec k0 k'); [reflexivity | exact IH].
Qed.

Lemma dict_get_set (k k0 : K) (v : V) (d : dict K V) :
  get k0 (dict_set K_eq_dec k v d) = if K_eq_dec k0 k then Some v else get k0 d.
Proof.
  unfold dict_set, dict_mem. destruct (get k d) eqn:E.
  - rewrite dict_get_modify, E. reflexivity.
  - rewrite dict_get_app. simpl.
    destruct (K_eq_dec k0 k) as [->|Hne]; [now rewrite E|].
    now destruct (get k0 d).
Qed.

Lemma keys_set (k : K) (v : V) (d : dict K V) :
  keys (dict_set K_eq_dec k v d) = if dict_mem K_eq_dec k d then keys d else keys d ++ [k].
Proof.
  unfold dict_set. destruct (dict_mem K_eq_dec k d).
  - apply keys_modify.
  - unfold keys. now rewrite map_app.
Qed.

Lemma dict_mem_false (k : K) (d : dict K V) :
  dict_mem K_eq_dec k d = false <-> ~ In k (keys d).
Proof.
  rewrite <- dict_get_None. unfold dict_mem.
  destruct (get k d); split; congruence.
Qed.

Lemma NoDup_keys_set (k : K) (v : V) (d : dict K V) :
  NoDup (keys d) -> NoDup (keys (dict_set K_eq_dec k v d)).
Proof.
  intros Hnd. rewrite keys_set.
  destruct (dict_mem K_eq_dec k d) eqn:E; [exact Hnd|].
  apply dict_mem_false in E.
  apply NoDup_rev in Hnd. rewrite <- (rev_involutive (keys d ++ [k])).
  apply NoDup_rev. rewrite rev_app_distr. simpl. constructor; [|exact Hnd].
  now rewrite <- in_rev.
Qed.
End DictFacts.

(* ================================================================= *)
(** ** The tables built by [collect_dict] *)

Lemma subscript_in_range {A : Type} (l : list A) (i : nat) (d : A) :
  i < List.length l -> subscript l i = Ok (nth i l d).
Proof.
  intros H. unfold subscript. now rewrite (nth_error_nth' l d H).
Qed.

Lemma extend_nil (o : option (list Token)) : extend o [] = o.
Proof. destruct o; simpl; [now rewrite app_nil_r | reflexivity]. Qed.

Lemma extend_extend (o : option (list Token)) (l1 l2 : list Token) :
  extend (extend o l1) l2 = extend o (l1 ++ l2).
Proof.
  destruct o as [l0|]; simpl.
  - now rewrite app_assoc.
  - destruct l1; simpl; [now destruct l2 | reflexivity].
Qed.

Lemma followers_cons (words : list Token) (N j : nat) (c : Key) (i : nat)
  (ps : list nat) :
  followers words N j c (i :: ps) =
  followers words N j c [i] ++ followers words N j c ps.
Proof.
  unfold followers, positions. simpl.
  destruct (Key_eq_dec (slice words i j) c); reflexivity.
Qed.

Section CollectTable.
Variables (words : list Token) (N j : nat).

Lemma collect_step_spec (sub : Table) (i : nat) :
  i + N < List.length words ->
  exists sub',
    collect_step words N j sub i = Ok sub' /\
    (forall c, table_get c sub' = extend (table_get c sub) (followers words N j c [i])) /\
    (NoDup (keys sub) -> NoDup (keys sub')).
Proof.
  intros Hi. unfold collect_step.
  rewrite (subscript_in_range words (i + N) EmptyString Hi). simpl.
  set (w := nth (i + N) words EmptyString).
  set (key := slice words i j).
  unfold table_mem, table_get.
  destruct (dict_mem Key_eq_dec key sub) eqn:Hmem; eexists; split; try reflexivity; split.
  - intros c. rewrite dict_get_modify. unfold followers, positions. simpl.
    fold key. fold w. unfold dict_mem in Hmem.
    destruct (Key_eq_dec c key) as [->|Hne].
    + destruct (Key_eq_dec key key); [|congruence].
      destruct (dict_get Key_eq_dec key sub); [reflexivity | discriminate].
    + destruct (Key_eq_dec key c); [congruence|]. simpl. now rewrite extend_nil.
  - now rewrite keys_modify.
  - intros c. rewrite dict_get_set. unfold followers, positions. simpl.
    fold key. fold w. unfold dict_mem in Hmem.
    destruct (Key_eq_dec c key) as [->|Hne].
    + destruct (Key_eq_dec key key); [|congruence].
      destruct (dict_get Key_eq_dec key sub); [discriminate | reflexivity].
    + destruct (Key_eq_dec key c); [congruence|]. simpl. now rewrite extend_nil.
  - apply NoDup_keys_set.
Qed.

Lemma collect_steps_spec (ps : list nat) :
  forall sub : Table,
  (forall i, In i ps -> i + N < List.length words) ->
  exists sub',
    for_each (collect_step words N j) ps sub = Ok sub' /\
    (forall c, table_get c sub' = extend (table_get c sub) (followers words N j c ps)) /\
    (NoDup (keys sub) -> NoDup (keys sub')).
Proof.
  induction ps as [|i ps IH]; intros sub Hps; simpl.
  - exists sub. split; [reflexivity|]. split; [|tauto].
    intros c. unfold followers. simpl. now rewrite extend_nil.
  - destruct (collect_step_spec sub i) as (sub1 & E1 & G1 & D1).
    { apply Hps. now left. }
    destruct (IH sub1) as (sub2 & E2 & G2 & D2).
    { intros k Hk. apply Hps. now right. }
    exists sub2. rewrite E1. simpl. split; [exact E2|]. split; [|tauto].
    intros c. rewrite G2, G1, extend_extend. now rewrite <- followers_cons.
Qed.

Lemma collect_table_spec :
  exists table,
    collect_table words N j = Ok table /\
    (forall c, table_get c table = extend None (followers words N j c (starts words N))) /\
    NoDup (keys table).
Proof.
  destruct (collect_steps_spec (starts words N) []) as (t & E & G & D).
  { intros i Hi. unfold starts in Hi. apply in_seq in Hi. lia. }
  exists t. split; [exact E|]. split; [exact G|]. apply D. constructor.
Qed.
End CollectTable.

Section CollectDict.
Variables (words : list Token) (N : nat).

Lemma collect_orders_spec (js : list nat) :
  forall m0 : Model,
  exists m,
    for_each (collect_order words N) js m0 = Ok m /\
    (forall j, In j js ->
       exists table, collect_table words N j = Ok table /\ model_get j m = Some table) /\
    (forall j, ~ In j js -> model_get j m = model_get j m0) /\
    (NoDup js -> (forall j, In j js -> ~ In j (keys m0)) -> keys m = keys m0 ++ js).
Proof.
  induction js as [|j js IH]; intros m0; simpl.
  - exists m0. repeat split; try tauto. intros _ _. now rewrite app_nil_r.
  - destruct (collect_table_spec words N j) as (t & Et & _).
    unfold collect_order at 1. rewrite Et. simpl.
    destruct (IH (dict_set Nat.eq_dec j t m0)) as (m & E & Hin & Hout & Hkeys).
    exists m. split; [exact E|]. repeat split.
    + intros j' [<-|Hj'].
      * destruct (in_dec Nat.eq_dec j js) as [Hjs|Hjs]; [now apply Hin|].
        exists t. split; [exact Et|]. rewrite (Hout j Hjs).
        unfold model_get. rewrite dict_get_set.
        now destruct (Nat.eq_dec j j).
      * now apply Hin.
    + intros j' Hj'. rewrite Hout by tauto.
      unfold model_get. rewrite dict_get_set.
      destruct (Nat.eq_dec j' j); [subst; tauto | reflexivity].
    + intros Hnd Hfresh. inversion Hnd as [|? ? Hj Hnd']; subst.
      assert (Hm : dict_mem Nat.eq_dec j m0 = false).
      { apply dict_mem_false. apply Hfresh. now left. }
      rewrite Hkeys; [| exact Hnd' |].
      * rewrite keys_set, Hm, <- app_assoc. reflexivity.
      * intros j' Hj'. rewrite keys_set, Hm. rewrite in_app_iff. simpl.
        intros [H|[H|[]]]; [apply (Hfresh j'); tauto | congruence].
Qed.

Lemma collect_dict_spec :
  exists m,
    collect_dict words N = Ok m /\
    keys m = seq 1 N /\
    (forall j, 1 <= j <= N ->
       exists table, collect_table words N j = Ok table /\ model_get j m = Some table) /\
    (forall j, ~ (1 <= j <= N) -> model_get j m = None).
Proof.
  destruct (collect_orders_spec (seq 1 N) []) as (m & E & Hin & Hout & Hkeys).
  exists m. split; [exact E|]. repeat split.
  - apply Hkeys; [apply seq_NoDup | tauto].
  - intros j Hj. apply Hin. apply in_seq. lia.
  - intros j Hj. rewrite Hout; [reflexivity|]. rewrite in_seq. lia.
Qed.

(** Looking a table up in a built model. *)
Lemma built_table (m : Model) (j : nat) (table : Table) :
  collect_dict words N = Ok m ->
  model_get j m = Some table ->
  1 <= j <= N /\ collect_table words N j = Ok table.
Proof.
  intros Hm Hj.
  destruct collect_dict_spec as (m' & E & _ & Hin & Hout).
  rewrite Hm in E. injection E as <-.
  assert (Hr : 1 <= j <= N).
  { destruct (le_dec 1 j) as [H1|H1]; [destruct (le_dec j N) as [H2|H2]|];
      try lia; rewrite Hout in Hj by lia; discriminate. }
  split; [exact Hr|].
  destruct (Hin j Hr) as (t & Et & Gt). congruence.
Qed.

Lemma built_table_get (m : Model) (j : nat) (table : Table) (c : Key) :
  collect_dict words N = Ok m ->
  model_get j m = Some table ->
  table_get c table = extend None (followers words N j c (starts words N)).
Proof.
  intros Hm Hj. destruct (built_table m j table Hm Hj) as [_ Ht].
  destruct (collect_table_spec words N j) as (t & Et & Gt & _).
  rewrite Ht in Et. injection Et as <-. apply Gt.
Qed.

Lemma built_table_NoDup (m : Model) (j : nat) (table : Table) :
  collect_dict words N = Ok m ->
  model_get j m = Some table ->
  NoDup (keys table).
Proof.
  intros Hm Hj. destruct (built_table m j table Hm Hj) as [_ Ht].
  destruct (collect_table_spec words N j) as (t & Et & _ & Dt).
  rewrite Ht in Et. now injection Et as <-.
Qed.
End CollectDict.

Lemma fold_max_seq (n : nat) : forall a, fold_left Nat.max (seq (S a) n) a = a + n.
Proof.
  induction n as [|n IH]; intros a; simpl; [lia|].
  replace (Nat.max a (S a)) with (S a) by lia. rewrite IH. lia.
Qed.

Lemma built_top_table (words : list Token) (N : nat) (m : Model) :
  1 <= N ->
  collect_dict words N = Ok m ->
  exists table, top_table m = Ok table /\ model_get N m = Some table.
Proof.
  intros HN Hm.
  destruct (collect_dict_spec words N) as (m' & E & Hk & Hin & _).
  rewrite Hm in E. injection E as <-.
  destruct (Hin N) as (t & _ & Gt); [lia|].
  exists t. split; [|exact Gt].
  unfold top_table, max_key. rewrite Hk.
  destruct N as [|N]; [lia|]. simpl. rewrite fold_max_seq. simpl.
  unfold dict_item. unfold model_get in Gt. now rewrite Gt.
Qed.

Lemma positions_In (words : list Token) (j : nat) (c : Key) (ps : list nat) (i : nat) :
  In i (positions words j c ps) <-> In i ps /\ slice words i j = c.
Proof.
  unfold positions. rewrite filter_In.
  destruct (Key_eq_dec (slice words i j) c); intuition congruence.
Qed.

Lemma followers_nonempty (words : list Token) (N j : nat) (c : Key) (ps : list nat) :
  followers words N j c ps <> [] <-> exists i, In i ps /\ slice words i j = c.
Proof.
  unfold followers. split.
  - destruct (positions words j c ps) as [|i l] eqn:E; [simpl; congruence|].
    intros _. exists i. apply positions_In. rewrite E. now left.
  - intros (i & Hi). apply positions_In in Hi.
    destruct (positions words j c ps); [destruct Hi | simpl; congruence].
Qed.

Lemma extend_None_Some (l l' : list Token) :
  extend None l = Some l' <-> l' = l /\ l <> [].
Proof.
  destruct l; simpl; split.
  - discriminate.
  - intros [_ H]. congruence.
  - intros [= <-]. split; [reflexivity | discriminate].
  - intros [-> _]. reflexivity.
Qed.

Lemma slice_length (words : list Token) (i j : nat) :
  i + j <= List.length words -> List.length (slice words i j) = j.
Proof.
  intros H. unfold slice. rewrite length_firstn, length_skipn. lia.
Qed.

Lemma In_starts (words : list Token) (N i : nat) :
  In i (starts words N) <-> i < List.length words - N.
Proof. unfold starts. rewrite in_seq. lia. Qed.

(** The keys of a built table are the windows of its order. *)
Lemma built_table_keys (words : list Token) (N : nat) (m : Model) (j : nat)
  (table : Table) (c : Key) :
  collect_dict words N = Ok m ->
  model_get j m = Some table ->
  (In c (keys table) <-> exists i, i < List.length words - N /\ slice words i j = c).
Proof.
  intros Hm Hj. rewrite (dict_get_keys Key_eq_dec).
  fold (table_get c table).
  rewrite (built_table_get words N m j table c Hm Hj). split.
  - intros (l & Hl). apply extend_None_Some in Hl. destruct Hl as [_ Hl].
    apply followers_nonempty in Hl. destruct Hl as (i & Hi & Hs).
    exists i. now rewrite <- In_starts.
  - intros (i & Hi & Hs). eexists. apply extend_None_Some. split; [reflexivity|].
    apply followers_nonempty. exists i. now rewrite In_starts.
Qed.

(** C2.  For every token sequence [words] and every order [j] in
    [1..N], [collect_dict words N] returns a model whose table [j] has as
    keys exactly the contexts [words[i:i+j]] found at some starting
    position [i] in [0 .. len(words)-N-1], and maps each key [c] to the
    tokens [words[i+N]] taken over those starting positions [i], in
    increasing order of [i], whose window [words[i:i+j]] is [c].  (This
    holds whatever the length of [words]; with [len(words) <= N] there is
    no starting position and no key.) *)
Theorem collect_dict_following_lists (words : list Token) (N j : nat) :
  1 <= j <= N ->
  exists m table,
    collect_dict words N = Ok m /\
    model_get j m = Some table /\
    forall c : Key,
      (In c (keys table) <->
       exists i, i < List.length words - N /\ slice words i j = c) /\
      (In c (keys table) ->
       table_get c table =
       Some (map (fun i => nth (i + N) words EmptyString)
               (filter (fun i => if Key_eq_dec (slice words i j) c then true else false)
                  (seq 0 (List.length words - N))))).
Proof.
  intros Hj.
  destruct (collect_dict_spec words N) as (m & Hm & _ & Hin & _).
  destruct (Hin j Hj) as (table & _ & Ht).
  exists m, table. split; [exact Hm|]. split; [exact Ht|].
  intros c. split; [now apply (built_table_keys words N m)|].
  intros Hc. apply (dict_get_keys Key_eq_dec) in Hc. destruct Hc as (l & Hl).
  fold (table_get c table) in Hl.
  rewrite Hl. f_equal.
  rewrite (built_table_get words N m j table c Hm Ht) in Hl.
  apply extend_None_Some in Hl. now destruct Hl.
Qed.

Lemma collect_dict_following_lists_witness :
  exists m table,
    collect_dict corpus9 2 = Ok m /\
    model_get 2 m = Some table /\
    table_get ["A"; "b"] table = Some ["c"; "d"].
Proof.
  destruct (collect_dict_following_lists corpus9 2 2) as (m & table & Hm & Ht & Hc);
    [lia|].
  exists m, table. split; [exact Hm|]. split; [exact Ht|].
  destruct (Hc ["A"; "b"]) as [Hk Hl].
  rewrite Hl; [reflexivity|].
  apply Hk. exists 0. split; [simpl; lia | reflexivity].
Defined.

(** C6.  For every token sequence and every [N], [collect_dict] returns a
    model, and in every table of it every entry has a non-empty list of
    successors. *)
Theorem collect_dict_lists_nonempty (words : list Token) (N : nat) :
  exists m,
    collect_dict words N = Ok m /\
    forall (j : nat) (table : Table) (c : Key) (l : list Token),
      model_get j m = Some table -> In (c, l) table -> l <> [].
Proof.
  destruct (collect_dict_spec words N) as (m & Hm & _).
  exists m. split; [exact Hm|].
  intros j table c l Ht Hin.
  apply dict_In_get with (K_eq_dec := Key_eq_dec) in Hin;
    [| exact (built_table_NoDup words N m j table Hm Ht)].
  fold (table_get c table) in Hin.
  rewrite (built_table_get words N m j table c Hm Ht) in Hin.
  apply extend_None_Some in Hin. destruct Hin as [-> Hne]. exact Hne.
Qed.

Lemma collect_dict_lists_nonempty_witness :
  exists m table,
    collect_dict corpus9 2 = Ok m /\
    model_get 1 m = Some table /\
    In (["b"], ["."; "."]) table /\
    ["."; "."] <> @nil Token.
Proof.
  destruct (collect_dict_lists_nonempty corpus9 2) as (m & Hm & Hne).
  vm_compute in Hm. injection Hm as <-.
  eexists _, _. split; [reflexivity|]. split; [reflexivity|].
  assert (Hin : In (["b"], ["."; "."])
                  [(["A"], ["c"; "d"]); (["b"], ["."; "."]); (["c"], ["A"]); (["."], ["b"])]).
  { right. left. reflexivity. }
  split; [exact Hin|].
  exact (Hne 1 _ ["b"] ["."; "."] eq_refl Hin).
Defined.

(** C4, as the code has it.  When [words] has at most [N] tokens,
    [collect_dict words N] raises nothing: it returns the model whose keys
    are the orders [1..N] and whose [N] tables are all empty. *)
Theorem collect_dict_short_corpus (words : list Token) (N : nat) :
  List.length words <= N ->
  exists m,
    collect_dict words N = Ok m /\
    keys m = seq 1 N /\
    forall j, 1 <= j <= N -> model_get j m = Some [].
Proof.
  intros Hlen.
  destruct (collect_dict_spec words N) as (m & Hm & Hk & Hin & _).
  exists m. split; [exact Hm|]. split; [exact Hk|].
  intros j Hj. destruct (Hin j Hj) as (table & Ht & Hg).
  rewrite Hg. f_equal.
  unfold collect_table in Ht.
  replace (List.length words - N) with 0 in Ht by lia.
  simpl in Ht. now injection Ht as <-.
Qed.

Lemma collect_dict_short_corpus_witness :
  exists m,
    collect_dict ["a"; "b"] 2 = Ok m /\
    keys m = [1; 2] /\
    forall j, 1 <= j <= 2 -> model_get j m = Some [].
Proof.
  apply (collect_dict_short_corpus ["a"; "b"] 2). simpl. lia.
Defined.

(** C4, as the claim has it, fails: on the one-token corpus [["a"]] with
    [N = 2] the builder raises nothing and returns a model of two empty
    tables. *)
Lemma collect_dict_short_corpus_returns :
  1 <= 2 /\ List.length ["a"] <= 2 /\
  collect_dict ["a"] 2 = Ok [(1, []); (2, [])] /\
  forall e, collect_dict ["a"] 2 <> Raise e.
Proof.
  split; [lia|]. split; [simpl; lia|]. split; [reflexivity|].
  intros e. discriminate.
Qed.

(* ================================================================= *)
(** ** The backoff search *)

Lemma shorten_length (key_id : Key) :
  1 <= List.length key_id ->
  List.length (shorten key_id) = Nat.max 1 (List.length key_id - 1).
Proof.
  intros H. unfold shorten.
  destruct (1 <? List.length key_id) eqn:E.
  - apply Nat.ltb_lt in E. rewrite length_skipn. lia.
  - apply Nat.ltb_ge in E. lia.
Qed.

Lemma trailing_all (key_id : Key) : trailing (List.length key_id) key_id = key_id.
Proof. unfold trailing. now rewrite Nat.sub_diag. Qed.

Lemma trailing_shorten (k : nat) (key_id : Key) :
  1 <= k <= List.length (shorten key_id) ->
  trailing k (shorten key_id) = trailing k key_id.
Proof.
  unfold shorten. destruct (1 <? List.length key_id) eqn:E; [|reflexivity].
  apply Nat.ltb_lt in E. rewrite length_skipn. intros Hk.
  unfold trailing. rewrite length_skipn, skipn_skipn. f_equal. lia.
Qed.

(** A context without support makes the pass go on with the shortened
    key, provided the table of its order exists. *)
Lemma backoff_pass_unsupported (word_pairs : Model) (key_id : Key)
  (min_length : nat) (rng : Rng) (table : Table) :
  model_get (List.length key_id) word_pairs = Some table ->
  ~ supported word_pairs min_length key_id ->
  backoff_pass word_pairs key_id min_length rng = Continue (shorten key_id).
Proof.
  intros Ht Hns. unfold backoff_pass. rewrite Ht.
  destruct (table_get key_id table) as [following|] eqn:Ef; [|reflexivity].
  destruct (min_length <=? List.length following) eqn:El; [|reflexivity].
  exfalso. apply Hns. exists table, following. apply Nat.leb_le in El. tauto.
Qed.

(** When no trailing part of the context has support, the search ends in
    the statement after the loop, and that statement reads the table of
    order 1 at the last token of the context. *)
Lemma backoff_loop_exhausted (word_pairs : Model) (min_length : nat) (rng : Rng)
  (passes : nat) :
  forall key_id : Key,
    1 <= List.length key_id <= S passes ->
    has_orders word_pairs (List.length key_id) ->
    (forall k, 1 <= k <= List.length key_id ->
       ~ supported word_pairs min_length (trailing k key_id)) ->
    backoff_loop passes word_pairs key_id min_length rng =
    backoff_last word_pairs (trailing 1 key_id) rng.
Proof.
  induction passes as [|passes IH]; intros key_id Hlen Hord Hns; simpl.
  - replace 1 with (List.length key_id) at 1 by lia. now rewrite trailing_all.
  - destruct (Hord (List.length key_id)) as (table & Ht); [lia|].
    rewrite (backoff_pass_unsupported word_pairs key_id min_length rng table Ht).
    + assert (Hs := shorten_length key_id (proj1 Hlen)).
      rewrite IH.
      * rewrite trailing_shorten by lia. reflexivity.
      * lia.
      * intros k Hk. apply Hord. lia.
      * intros k Hk. rewrite trailing_shorten by lia. apply Hns. lia.
    + rewrite <- (trailing_all key_id) at 1. apply Hns. lia.
Qed.

Lemma get_next_word_exhausted (word_pairs : Model) (key_id : Key)
  (min_length : nat) (rng : Rng) :
  1 <= List.length key_id ->
  has_orders word_pairs (List.length key_id) ->
  (forall k, 1 <= k <= List.length key_id ->
     ~ supported word_pairs min_length (trailing k key_id)) ->
  get_next_word word_pairs key_id min_length rng =
  backoff_last word_pairs (trailing 1 key_id) rng.
Proof.
  intros H1 H2 H3. unfold get_next_word.
  apply backoff_loop_exhausted; [lia | exact H2 | exact H3].
Qed.

(** The trace is the search: its second component is the result of
    [get_next_word]. *)
Lemma backoff_trace_result (word_pairs : Model) (min_length : nat) (rng : Rng)
  (passes : nat) :
  forall key_id : Key,
    snd (backoff_trace passes word_pairs key_id min_length rng) =
    backoff_loop passes word_pairs key_id min_length rng.
Proof.
  induction passes as [|passes IH]; intros key_id; simpl; [reflexivity|].
  destruct (backoff_pass word_pairs key_id min_length rng) as [r|key_id'];
    [reflexivity|].
  specialize (IH key_id').
  destruct (backoff_trace passes word_pairs key_id' min_length rng). exact IH.
Qed.

Lemma get_next_word_trace_result (word_pairs : Model) (key_id : Key)
  (min_length : nat) (rng : Rng) :
  snd (get_next_word_trace word_pairs key_id min_length rng) =
  get_next_word word_pairs key_id min_length rng.
Proof. apply backoff_trace_result. Qed.

Lemma backoff_pass_continue (word_pairs : Model) (key_id key_id' : Key)
  (min_length : nat) (rng : Rng) :
  backoff_pass word_pairs key_id min_length rng = Continue key_id' ->
  key_id' = shorten key_id.
Proof.
  unfold backoff_pass.
  destruct (model_get (List.length key_id) word_pairs); [|discriminate].
  destruct (table_get key_id t) as [following|].
  - destruct (min_length <=? List.length following); [discriminate | congruence].
  - congruence.
Qed.

(** Every access of the search is at an order between 1 and the length
    of the context it was called with. *)
Lemma backoff_trace_orders (word_pairs : Model) (min_length : nat) (rng : Rng)
  (passes : nat) :
  forall key_id : Key,
    1 <= List.length key_id ->
    forall a, In a (fst (backoff_trace passes word_pairs key_id min_length rng)) ->
    1 <= order_of a <= List.length key_id.
Proof.
  induction passes as [|passes IH]; intros key_id Hlen a; simpl.
  - intros [<-|[]]. simpl. lia.
  - destruct (backoff_pass word_pairs key_id min_length rng) as [r|key_id'] eqn:E.
    + intros [<-|[]]. simpl. lia.
    + apply backoff_pass_continue in E. subst key_id'.
      assert (Hs := shorten_length key_id Hlen).
      assert (Hs1 : 1 <= List.length (shorten key_id)) by lia.
      specialize (IH (shorten key_id) Hs1 a).
      destruct (backoff_trace passes word_pairs (shorten key_id) min_length rng).
      cbn [fst] in IH. cbn [fst In]. intros [<-|Ha]; [simpl; lia|].
      specialize (IH Ha). lia.
Qed.

(** The probes inside the loop are at most as many as the loop has
    passes, and at most one access follows them. *)
Lemma backoff_trace_length (word_pairs : Model) (min_length : nat) (rng : Rng)
  (passes : nat) :
  forall key_id : Key,
    List.length (fst (backoff_trace passes word_pairs key_id min_length rng))
    <= S passes.
Proof.
  induction passes as [|passes IH]; intros key_id; simpl; [lia|].
  destruct (backoff_pass word_pairs key_id min_length rng) as [r|key_id'];
    [simpl; lia|].
  specialize (IH key_id').
  destruct (backoff_trace passes word_pairs key_id' min_length rng).
  simpl in *. lia.
Qed.

(** A returned token comes from some list of successors of the model. *)
Lemma random_choice_In {A : Type} (seq : list A) (rng rng' : Rng) (x : A) :
  random_choice seq rng = Ok (x, rng') -> In x seq /\ rng' = advance rng.
Proof.
  unfold random_choice. destruct seq as [|y seq]; [discriminate|].
  unfold subscript.
  destruct (nth_error (y :: seq) (randbelow rng (List.length (y :: seq)))) eqn:E;
    cbn [bind]; [|discriminate].
  intros [= <- <-]. split; [|reflexivity]. eapply nth_error_In. exact E.
Qed.

Lemma backoff_last_In (word_pairs : Model) (key_id : Key) (rng rng' : Rng)
  (w : Token) :
  backoff_last word_pairs key_id rng = Ok (w, rng') ->
  exists k table c following,
    model_get k word_pairs = Some table /\
    table_get c table = Some following /\ In w following.
Proof.
  unfold backoff_last, dict_item.
  destruct (dict_get Nat.eq_dec (List.length key_id) word_pairs) as [table|] eqn:Et;
    simpl; [|discriminate].
  destruct (dict_get Key_eq_dec key_id table) as [following|] eqn:Ef;
    simpl; [|discriminate].
  intros H. apply random_choice_In in H.
  exists (List.length key_id), table, key_id, following. tauto.
Qed.

Lemma backoff_loop_In (word_pairs : Model) (min_length : nat) (rng rng' : Rng)
  (w : Token) (passes : nat) :
  forall key_id : Key,
    backoff_loop passes word_pairs key_id min_length rng = Ok (w, rng') ->
    exists k table c following,
      model_get k word_pairs = Some table /\
      table_get c table = Some following /\ In w following.
Proof.
  induction passes as [|passes IH]; intros key_id; simpl.
  - apply backoff_last_In.
  - unfold backoff_pass.
    destruct (model_get (List.length key_id) word_pairs) as [table|] eqn:Et;
      [|discriminate].
    destruct (table_get key_id table) as [following|] eqn:Ef; [|apply IH].
    destruct (min_length <=? List.length following); [|apply IH].
    intros H. apply random_choice_In in H.
    exists (List.length key_id), table, key_id, following. tauto.
Qed.

Lemma random_choice_singleton {A : Type} (x : A) (rng : Rng) :
  random_choice [x] rng = Ok (x, advance rng).
Proof.
  unfold random_choice, randbelow. simpl List.length. now rewrite Nat.mod_1_r.
Qed.

(** C1, on the code.  In the model built from [a b c d] with [N = 2] the
    context [(a, b)] is a key of the order-2 table with the single
    successor [c], and with [min_length = 2] no trailing part of it has
    support.  The statement after the loop then reads the order-1 table
    at the shortened key [(b,)]: whatever the random source, the search
    returns [d], which is not a successor of [(a, b)] in the order-2
    table. *)
Theorem get_next_word_falls_back_on_last_token :
  exists m table2,
    collect_dict ["a"; "b"; "c"; "d"] 2 = Ok m /\
    model_get 2 m = Some table2 /\
    table_get ["a"; "b"] table2 = Some ["c"] /\
    (forall k, 1 <= k <= 2 -> ~ supported m 2 (trailing k ["a"; "b"])) /\
    (forall rng, get_next_word m ["a"; "b"] 2 rng = Ok ("d", advance rng)) /\
    ~ In "d" ["c"].
Proof.
  eexists _, _. split; [reflexivity|]. split; [reflexivity|]. split; [reflexivity|].
  match goal with |- ?P /\ _ => assert (Hns : P) end.
  { intros k Hk (table & following & Ht & Hf & Hs).
    assert (Hk' : k = 1 \/ k = 2) by lia.
    destruct Hk' as [-> | ->]; vm_compute in Ht; injection Ht as <-;
      vm_compute in Hf; injection Hf as <-; simpl in Hs; lia. }
  split; [exact Hns|]. split.
  - intros rng. rewrite get_next_word_exhausted.
    + change (backoff_last _ (trailing 1 ["a"; "b"]) rng)
        with (random_choice ["d"] rng).
      apply random_choice_singleton.
    + simpl. lia.
    + intros k Hk. assert (Hk' : k = 1 \/ k = 2) by (simpl in Hk; lia).
      destruct Hk' as [-> | ->]; eexists; reflexivity.
    + exact Hns.
  - simpl. intros [H|[]]. discriminate.
Qed.

(** C8, on the code.  In the model built from [a b c] with [N = 2] the
    context [(a, b)] is a key of the order-2 table.  With
    [min_length = 2] the search probes the orders 2 and 1 and then, in
    the statement after the loop, looks the shortened key [(b,)] up in the
    order-1 table, where it is absent: the call raises [KeyError] and
    returns no token. *)
Theorem get_next_word_raises_at_last_window :
  exists m table2,
    collect_dict ["a"; "b"; "c"] 2 = Ok m /\
    model_get 2 m = Some table2 /\
    table_get ["a"; "b"] table2 = Some ["c"] /\
    forall rng,
      get_next_word_trace m ["a"; "b"] 2 rng =
        ([Probe 2; Probe 1; Fallback 1], Raise KeyError) /\
      get_next_word m ["a"; "b"] 2 rng = Raise KeyError.
Proof.
  eexists _, _. split; [reflexivity|]. split; [reflexivity|]. split; [reflexivity|].
  intros rng. split; reflexivity.
Qed.

(** C10.  For every token sequence [words] and every [N],
    [collect_dict words N] returns a model in which every key of the table
    of an order [j] is a tuple of exactly [j] tokens, the window
    [words[i:i+j]] of some starting position [i < len(words) - N], with
    [j] in [1..N]; and every dictionary access of [get_next_word], called
    with a context of a length in [1..N], is at an order [k] between 1 and
    that length, where the model has a table, all of whose keys have
    length [k]. *)
Theorem built_keys_have_the_order_of_their_table (words : list Token) (N : nat) :
  exists m,
    collect_dict words N = Ok m /\
    (forall (j : nat) (table : Table) (key : Key),
       model_get j m = Some table -> In key (keys table) ->
       1 <= j <= N /\ List.length key = j /\
       exists i, i < List.length words - N /\ key = slice words i j) /\
    (forall (key_id : Key) (min_length : nat) (rng : Rng) (a : access),
       1 <= List.length key_id <= N ->
       In a (fst (get_next_word_trace m key_id min_length rng)) ->
       1 <= order_of a <= List.length key_id /\
       exists table,
         model_get (order_of a) m = Some table /\
         forall key, In key (keys table) -> List.length key = order_of a).
Proof.
  destruct (collect_dict_spec words N) as (m & Hm & _ & Hin & _).
  exists m. split; [exact Hm|].
  assert (Hkeys : forall (j : nat) (table : Table) (key : Key),
             model_get j m = Some table -> In key (keys table) ->
             1 <= j <= N /\ List.length key = j /\
             exists i, i < List.length words - N /\ key = slice words i j).
  { intros j table key Ht Hk.
    destruct (built_table words N m j table Hm Ht) as [Hj _].
    apply (built_table_keys words N m j table key Hm Ht) in Hk.
    destruct Hk as (i & Hi & <-).
    split; [exact Hj|]. split; [apply slice_length; lia|]. now exists i. }
  split; [exact Hkeys|].
  intros key_id min_length rng a Hlen Ha.
  apply backoff_trace_orders in Ha; [|lia].
  split; [exact Ha|].
  destruct (Hin (order_of a)) as (table & _ & Ht); [lia|].
  exists table. split; [exact Ht|].
  intros key Hk. now destruct (Hkeys _ _ _ Ht Hk) as (_ & Hl & _).
Qed.

Lemma built_keys_have_the_order_of_their_table_witness :
  exists m,
    collect_dict corpus9 2 = Ok m /\
    (forall table, model_get 2 m = Some table ->
       In ["b"; "d"] (keys table) -> List.length ["b"; "d"] = 2) /\
    (forall a, In a (fst (get_next_word_trace m ["c"; "."] 3 pick_first)) ->
       1 <= order_of a <= 2).
Proof.
  destruct (built_keys_have_the_order_of_their_table corpus9 2)
    as (m & Hm & Hkeys & Hacc).
  exists m. split; [exact Hm|]. split.
  - intros table Ht Hk. now destruct (Hkeys 2 table ["b"; "d"] Ht Hk) as (_ & Hl & _).
  - intros a Ha.
    assert (Hlen : 1 <= List.length ["c"; "."] <= 2) by (simpl; lia).
    exact (proj1 (Hacc ["c"; "."] 3 pick_first a Hlen Ha)).
Defined.

(** C9.  On the corpus [A b c . A b d .] with [N = 2] the built order-2
    table maps [(A, b)] to [[c; d]]; [(A, b)] is the only capitalized key,
    so the seed; and with [min_length = 1], [limit = 4] and the source
    that always picks the last candidate, the token sequence is
    [A b d .] and the rendered text ["A b d."].  Of [isupper] it takes
    what Python's says of the first characters of the keys: [A] is
    uppercase, [b], [c] and [.] are not. *)
Theorem concrete_scenario (isupper : ascii -> bool) :
  isupper "A"%char = true ->
  isupper "b"%char = false ->
  isupper "c"%char = false ->
  isupper "."%char = false ->
  exists m table2,
    collect_dict corpus9 2 = Ok m /\
    model_get 2 m = Some table2 /\
    table_get ["A"; "b"] table2 = Some ["c"; "d"] /\
    capitalized_keys isupper m = Ok [["A"; "b"]] /\
    (exists st,
       generate_state isupper m m 4 1 pick_last = Ok st /\
       output_tokens st = ["A"; "b"; "d"; "."]) /\
    generate_text isupper m m 4 1 pick_last = Ok "A b d.".
Proof.
  intros HA Hb Hc Hdot.
  assert (Hcap : capitalized_keys isupper model9 = Ok [["A"; "b"]]).
  { unfold capitalized_keys.
    change (top_table model9) with (Ok table9_2). cbn [bind].
    cbn [table9_2 keys map fst filter_keys capitalized subscript nth_error bind].
    rewrite HA, Hb, Hc, Hdot. reflexivity. }
  exists model9, table9_2.
  split; [reflexivity|]. split; [reflexivity|]. split; [reflexivity|].
  split; [exact Hcap|].
  unfold generate_text, generate_state. rewrite Hcap. cbn [bind].
  split; [|reflexivity].
  eexists. split; reflexivity.
Qed.

Lemma concrete_scenario_witness :
  exists m,
    collect_dict corpus9 2 = Ok m /\
    generate_text ascii_isupper m m 4 1 pick_last = Ok "A b d.".
Proof.
  destruct (concrete_scenario ascii_isupper eq_refl eq_refl eq_refl eq_refl)
    as (m & table2 & Hm & _ & _ & _ & _ & Htext).
  exists m. split; [exact Hm | exact Htext].
Defined.

(* ================================================================= *)
(** ** The rendering *)

Lemma string_pair_ind (P : string -> Prop) :
  P EmptyString ->
  (forall c, P (String c EmptyString)) ->
  (forall c d s, P s -> P (String d s) -> P (String c (String d s))) ->
  forall s, P s.
Proof.
  intros H0 H1 H2 s.
  enough (H : P s /\ forall c, P (String c s)) by apply H.
  induction s as [|d s [IH1 IH2]]; split; auto.
Qed.

Lemma prefix_pair (a b : ascii) (s : string) :
  String.prefix (String a (String b EmptyString)) s =
  match s with
  | String c (String d _) => Ascii.eqb c a && Ascii.eqb d b
  | _ => false
  end.
Proof.
  destruct s as [|c [|d s]]; cbn [String.prefix].
  - reflexivity.
  - destruct (ascii_dec a c); [|reflexivity].
    destruct (Ascii.eqb c a); reflexivity.
  - destruct (ascii_dec a c) as [<-|Hc].
    + rewrite Ascii.eqb_refl. destruct (ascii_dec b d) as [<-|Hd].
      * rewrite Ascii.eqb_refl. now destruct s.
      * symmetry. apply andb_false_iff. right. apply Ascii.eqb_neq. congruence.
    + symmetry. apply andb_false_iff. left. apply Ascii.eqb_neq. congruence.
Qed.

Lemma replace_from_scan (old new : string) (c : ascii) (s : string) :
  replace_from old new 0 (String c s) =
  if String.prefix old (String c s)
  then (new ++ replace_from old new (String.length old - 1) s)%string
  else String c (replace_from old new 0 s).
Proof. reflexivity. Qed.

Lemma replace_from_skip (old new : string) (k : nat) (c : ascii) (s : string) :
  replace_from old new (S k) (String c s) = replace_from old new k s.
Proof. reflexivity. Qed.

Lemma unspace_cons (p c : ascii) (s : string) :
  unspace p (String c s) =
  if Ascii.eqb c space && starts_with p s then unspace p s
  else String c (unspace p s).
Proof. reflexivity. Qed.

Lemma unspace_at_mark (p : ascii) (s : string) :
  p <> space -> unspace p (String p s) = String p (unspace p s).
Proof.
  intros Hp. rewrite unspace_cons.
  apply Ascii.eqb_neq in Hp. now rewrite Hp.
Qed.

(** For a pattern made of a space and one more character that is not a
    space, [replace] removes the spaces that stand before that character. *)
Lemma replace_unspace (p : ascii) (s : string) :
  p <> space ->
  replace (String " " (String p EmptyString)) (String p EmptyString) s = unspace p s.
Proof.
  intros Hp. unfold replace.
  induction s as [| c | c d s IH1 IH2] using string_pair_ind.
  - reflexivity.
  - rewrite replace_from_scan, prefix_pair, unspace_cons.
    cbn [starts_with]. now rewrite andb_false_r.
  - rewrite replace_from_scan, prefix_pair, unspace_cons.
    cbn [starts_with String.length Nat.sub].
    change (Ascii.eqb c " ") with (Ascii.eqb c space).
    destruct (Ascii.eqb c space && Ascii.eqb d p) eqn:E.
    + apply andb_true_iff in E. destruct E as [_ E].
      apply Ascii.eqb_eq in E. subst d.
      rewrite replace_from_skip, IH1, unspace_at_mark by exact Hp.
      reflexivity.
    + now rewrite IH2.
Qed.

Lemma starts_with_unspace (p b c : ascii) (s : string) :
  p <> space ->
  starts_with b (unspace p (String c s)) =
  if Ascii.eqb c space && starts_with p s then Ascii.eqb p b else Ascii.eqb c b.
Proof.
  intros Hp. rewrite unspace_cons.
  destruct (Ascii.eqb c space && starts_with p s) eqn:E; [|reflexivity].
  apply andb_true_iff in E. destruct E as [_ E].
  destruct s as [|d s]; [discriminate|]. cbn [starts_with] in E.
  apply Ascii.eqb_eq in E. subst d.
  now rewrite unspace_at_mark.
Qed.

(** The first character after a kept space is not touched. *)
Lemma starts_with_unspace_after_space (p b : ascii) (s : string) :
  p <> space ->
  starts_with space s = false ->
  starts_with b (unspace p s) = starts_with b s.
Proof.
  intros Hp Hs. destruct s as [|c s]; [reflexivity|].
  rewrite starts_with_unspace by exact Hp. cbn [starts_with] in *.
  now rewrite Hs.
Qed.

(** Without a space before [p] there is nothing to remove. *)
Lemma unspace_fixed (p : ascii) (s : string) :
  space_before p s = false -> unspace p s = s.
Proof.
  induction s as [|c s IH]; [reflexivity|].
  cbn [space_before]. intros H. apply orb_false_iff in H. destruct H as [H1 H2].
  rewrite unspace_cons, H1. now rewrite IH.
Qed.

(** In a text without two spaces in a row, one removal leaves no space
    before [p]. *)
Lemma unspace_removes (p : ascii) (s : string) :
  p <> space ->
  space_before space s = false ->
  space_before p (unspace p s) = false.
Proof.
  intros Hp. induction s as [|c s IH]; [reflexivity|].
  cbn [space_before]. intros H. apply orb_false_iff in H. destruct H as [H1 H2].
  rewrite unspace_cons.
  destruct (Ascii.eqb c space && starts_with p s) eqn:E; [now apply IH|].
  cbn [space_before]. rewrite (IH H2), orb_false_r.
  destruct (Ascii.eqb c space) eqn:Ec; [|reflexivity].
  cbn [andb] in *.
  rewrite starts_with_unspace_after_space; assumption.
Qed.

(** A removal brings no space before a character other than [p]. *)
Lemma unspace_keeps (p q : ascii) (s : string) :
  p <> space -> p <> q ->
  space_before q s = false ->
  space_before q (unspace p s) = false.
Proof.
  intros Hp Hq. induction s as [|c s IH]; [reflexivity|].
  cbn [space_before]. intros H. apply orb_false_iff in H. destruct H as [H1 H2].
  rewrite unspace_cons.
  destruct (Ascii.eqb c space && starts_with p s) eqn:E; [now apply IH|].
  cbn [space_before]. rewrite (IH H2), orb_false_r.
  destruct (Ascii.eqb c space) eqn:Ec; [|reflexivity].
  cbn [andb] in *.
  destruct s as [|d s]; [reflexivity|].
  rewrite starts_with_unspace by exact Hp.
  cbn [starts_with] in E, H1.
  destruct (Ascii.eqb d space && starts_with p s) eqn:E2; [|exact H1].
  apply Ascii.eqb_neq. exact Hq.
Qed.

Lemma attach_unspace (s : string) :
  attach s =
  unspace ";" (unspace "?" (unspace "!" (unspace "," (unspace "." s)))).
Proof.
  unfold attach.
  rewrite (replace_unspace "." s) by discriminate.
  rewrite (replace_unspace "," _) by discriminate.
  rewrite (replace_unspace "!" _) by discriminate.
  rewrite (replace_unspace "?" _) by discriminate.
  rewrite (replace_unspace ";" _) by discriminate.
  reflexivity.
Qed.

Lemma attach_attached (s : string) :
  space_before space s = false -> attached (attach s).
Proof.
  intros H0. rewrite attach_unspace.
  set (s1 := unspace "." s).
  set (s2 := unspace "," s1).
  set (s3 := unspace "!" s2).
  set (s4 := unspace "?" s3).
  assert (N1 : space_before space s1 = false) by (apply unspace_keeps; [discriminate..|exact H0]).
  assert (N2 : space_before space s2 = false) by (apply unspace_keeps; [discriminate..|exact N1]).
  assert (N3 : space_before space s3 = false) by (apply unspace_keeps; [discriminate..|exact N2]).
  assert (N4 : space_before space s4 = false) by (apply unspace_keeps; [discriminate..|exact N3]).
  assert (D1 : space_before "." s1 = false) by (apply unspace_removes; [discriminate|exact H0]).
  assert (D2 : space_before "." s2 = false) by (apply unspace_keeps; [discriminate..|exact D1]).
  assert (D3 : space_before "." s3 = false) by (apply unspace_keeps; [discriminate..|exact D2]).
  assert (D4 : space_before "." s4 = false) by (apply unspace_keeps; [discriminate..|exact D3]).
  assert (C2 : space_before "," s2 = false) by (apply unspace_removes; [discriminate|exact N1]).
  assert (C3 : space_before "," s3 = false) by (apply unspace_keeps; [discriminate..|exact C2]).
  assert (C4 : space_before "," s4 = false) by (apply unspace_keeps; [discriminate..|exact C3]).
  assert (E3 : space_before "!" s3 = false) by (apply unspace_removes; [discriminate|exact N2]).
  assert (E4 : space_before "!" s4 = false) by (apply unspace_keeps; [discriminate..|exact E3]).
  assert (Q4 : space_before "?" s4 = false) by (apply unspace_removes; [discriminate|exact N3]).
  repeat split.
  - apply unspace_keeps; [discriminate..|exact N4].
  - apply unspace_keeps; [discriminate..|exact D4].
  - apply unspace_keeps; [discriminate..|exact C4].
  - apply unspace_keeps; [discriminate..|exact E4].
  - apply unspace_keeps; [discriminate..|exact Q4].
  - apply unspace_removes; [discriminate|exact N4].
Qed.

Lemma attach_fixed (s : string) : attached s -> attach s = s.
Proof.
  intros (_ & D & C & E & Q & S). rewrite attach_unspace.
  rewrite (unspace_fixed "." s D), (unspace_fixed "," s C),
    (unspace_fixed "!" s E), (unspace_fixed "?" s Q).
  exact (unspace_fixed ";" s S).
Qed.

Lemma render_rounds (s : string) : render s = attach (attach (attach (attach s))).
Proof. reflexivity. Qed.

(** On a text without two spaces in a row the first round does all the
    work. *)
Lemma render_attach (s : string) :
  space_before space s = false -> render s = attach s.
Proof.
  intros H. rewrite render_rounds.
  now rewrite !(attach_fixed (attach s)) by (apply attach_attached; exact H).
Qed.

Lemma space_free_no_space_before (b : ascii) (tok : string) :
  space_free tok = true -> space_before b tok = false.
Proof.
  induction tok as [|c tok IH]; [reflexivity|].
  cbn [space_free space_before]. intros H. apply andb_true_iff in H.
  destruct H as [Hc Ht]. apply negb_true_iff in Hc. rewrite Hc. now apply IH.
Qed.

Lemma is_word_starts (tok : Token) :
  is_word tok = true -> starts_with space tok = false /\ space_free tok = true.
Proof.
  destruct tok as [|c tok]; [discriminate|].
  cbn [is_word space_free starts_with]. intros H. split; [|exact H].
  apply andb_true_iff in H. destruct H as [Hc _]. now apply negb_true_iff in Hc.
Qed.

Lemma word_then_text (tok : Token) (r : string) :
  is_word tok = true ->
  space_before space r = false ->
  starts_with space r = false ->
  space_before space (tok ++ " " ++ r) = false /\
  starts_with space (tok ++ " " ++ r) = false.
Proof.
  intros Hw Hr1 Hr2. destruct (is_word_starts tok Hw) as [Hs Hf].
  split.
  - clear Hw Hs. induction tok as [|c tok IH].
    + cbn. now rewrite Hr1, Hr2.
    + cbn [space_free] in Hf. apply andb_true_iff in Hf. destruct Hf as [Hc Ht].
      apply negb_true_iff in Hc.
      change (String c tok ++ " " ++ r)%string with (String c (tok ++ " " ++ r)).
      cbn [space_before]. rewrite Hc. cbn [andb orb]. now apply IH.
  - destruct tok as [|c tok]; [discriminate|]. exact Hs.
Qed.

Lemma join_cons (sep : string) (x y : string) (l : list string) :
  join sep (x :: y :: l) = (x ++ sep ++ join sep (y :: l))%string.
Proof. reflexivity. Qed.

Lemma join_words_spacing (toks : list Token) :
  forallb is_word toks = true ->
  space_before space (join " " toks) = false /\
  (toks <> [] -> starts_with space (join " " toks) = false).
Proof.
  induction toks as [|t toks IH]; [now split|].
  cbn [forallb]. intros H. apply andb_true_iff in H. destruct H as [Ht Hts].
  destruct toks as [|t' toks].
  - destruct (is_word_starts t Ht) as [Hs Hf]. split.
    + now apply space_free_no_space_before.
    + intros _. exact Hs.
  - rewrite join_cons. destruct (IH Hts) as [I1 I2].
    destruct (word_then_text t (join " " (t' :: toks)) Ht I1) as [W1 W2].
    { apply I2. discriminate. }
    split; [exact W1 | intros _; exact W2].
Qed.

(** C7.  The rendering is idempotent on token sequences.  A token is a
    word or a punctuation mark as the tokenizer gives them, a non-empty
    string without a space ([is_word]).  For every sequence of tokens,
    rendering the joined text twice gives what rendering it once gives;
    the same holds for one round of the chained replacements, which
    already is the whole rendering. *)
Theorem rendering_idempotent_on_words (toks : list Token) :
  forallb is_word toks = true ->
  render (render (join " " toks)) = render (join " " toks) /\
  attach (attach (join " " toks)) = attach (join " " toks) /\
  render (join " " toks) = attach (join " " toks).
Proof.
  intros Hw. destruct (join_words_spacing toks Hw) as [Hs _].
  assert (Ha : attached (attach (join " " toks))) by now apply attach_attached.
  rewrite (render_attach _ Hs). repeat split.
  - rewrite render_attach by apply Ha. now apply attach_fixed.
  - now apply attach_fixed.
Qed.

Lemma rendering_idempotent_on_words_witness :
  forallb is_word ["A"; "b"; ","; "c"; "."] = true /\
  render (render (join " " ["A"; "b"; ","; "c"; "."])) =
  render (join " " ["A"; "b"; ","; "c"; "."]).
Proof.
  split; [reflexivity|].
  apply (rendering_idempotent_on_words ["A"; "b"; ","; "c"; "."]). reflexivity.
Defined.

(** Strings that are no tokens are another matter: joined with four
    empty strings between [a] and [.], the text has five spaces in a
    row, a rendering removes four of them and a second rendering the
    last. *)
Lemma rendering_not_idempotent :
  render (join " " ["a"; ""; ""; ""; ""; "."]) = "a ." /\
  render (render (join " " ["a"; ""; ""; ""; ""; "."])) = "a." /\
  render (render (join " " ["a"; ""; ""; ""; ""; "."])) <>
  render (join " " ["a"; ""; ""; ""; ""; "."]).
Proof.
  split; [reflexivity|]. split; [reflexivity|].
  vm_compute. discriminate.
Qed.

(* ================================================================= *)
(** ** Counting the words of the text *)

Lemma split_nonempty (sep : ascii) (s : string) : split sep s <> [].
Proof.
  induction s as [|c s IH]; simpl; [discriminate|].
  destruct (Ascii.eqb c sep); [discriminate|].
  destruct (split sep s); discriminate.
Qed.

Lemma split_app_sep (s w : string) :
  split space (s ++ " " ++ w) = split space s ++ split space w.
Proof.
  induction s as [|c s IH].
  - reflexivity.
  - change (String c s ++ " " ++ w)%string with (String c (s ++ " " ++ w)).
    cbn [split]. rewrite IH.
    destruct (Ascii.eqb c space); [reflexivity|].
    destruct (split space s) as [|x xs] eqn:E; [|reflexivity].
    now destruct (split_nonempty space s).
Qed.

Lemma split_space_free (w : string) :
  space_free w = true -> split space w = [w].
Proof.
  induction w as [|c w IH]; [reflexivity|].
  cbn [space_free split]. intros H. apply andb_true_iff in H. destruct H as [Hc Hw].
  apply negb_true_iff in Hc. rewrite Hc, (IH Hw). reflexivity.
Qed.

Lemma split_join (toks : list Token) :
  toks <> [] ->
  forallb space_free toks = true ->
  split space (join " " toks) = toks.
Proof.
  induction toks as [|t toks IH]; [congruence|]. intros _.
  cbn [forallb]. intros H. apply andb_true_iff in H. destruct H as [Ht Hts].
  destruct toks as [|t' toks].
  - now apply split_space_free.
  - rewrite join_cons, split_app_sep, (split_space_free t Ht).
    cbn [app]. apply (f_equal (cons t)). apply IH; [discriminate | exact Hts].
Qed.

Lemma string_app_assoc (a b c : string) :
  ((a ++ b) ++ c = a ++ (b ++ c))%string.
Proof.
  induction a as [|x a IH]; [reflexivity|]. simpl. now rewrite IH.
Qed.

Lemma join_snoc (toks : list Token) (w : Token) :
  toks <> [] ->
  join " " (toks ++ [w]) = (join " " toks ++ " " ++ w)%string.
Proof.
  induction toks as [|t toks IH]; [congruence|]. intros _.
  destruct toks as [|t' toks]; [reflexivity|].
  change ((t :: t' :: toks) ++ [w]) with (t :: t' :: (toks ++ [w])).
  rewrite !join_cons.
  change (t' :: toks ++ [w]) with ((t' :: toks) ++ [w]).
  rewrite IH by discriminate.
  now rewrite !string_app_assoc.
Qed.

Lemma word_count_grows (text w : string) :
  word_count text < word_count (text ++ " " ++ w).
Proof.
  unfold word_count. rewrite split_app_sep, length_app.
  destruct (split space w) eqn:E; [now destruct (split_nonempty space w)|].
  simpl. lia.
Qed.

(* ================================================================= *)
(** ** The generation loop *)

Lemma random_choice_returns {A : Type} (seq : list A) (rng : Rng) :
  random_choice seq rng <> OutOfFuel.
Proof.
  unfold random_choice. destruct seq as [|x seq]; [discriminate|].
  unfold subscript. destruct (nth_error _ _); discriminate.
Qed.

Lemma backoff_last_returns (word_pairs : Model) (key_id : Key) (rng : Rng) :
  backoff_last word_pairs key_id rng <> OutOfFuel.
Proof.
  unfold backoff_last, dict_item.
  destruct (dict_get Nat.eq_dec _ word_pairs) as [table|]; [|discriminate].
  cbn [bind]. destruct (dict_get Key_eq_dec key_id table); [|discriminate].
  apply random_choice_returns.
Qed.

Lemma backoff_loop_returns (word_pairs : Model) (min_length : nat) (rng : Rng)
  (passes : nat) :
  forall key_id, backoff_loop passes word_pairs key_id min_length rng <> OutOfFuel.
Proof.
  induction passes as [|passes IH]; intros key_id; simpl.
  - apply backoff_last_returns.
  - unfold backoff_pass.
    destruct (model_get _ word_pairs) as [table|]; [|discriminate].
    destruct (table_get key_id table) as [following|]; [|apply IH].
    destruct (min_length <=? List.length following); [|apply IH].
    apply random_choice_returns.
Qed.

(** The loop returns or raises whenever the fuel covers the words still
    to come. *)
Lemma generate_loop_returns (word_pairs : Model) (limit min_length : nat)
  (fuel : nat) :
  forall st,
    limit <= fuel + word_count (markov_text st) ->
    generate_loop fuel word_pairs limit min_length st <> OutOfFuel.
Proof.
  induction fuel as [|fuel IH]; intros st Hfuel; cbn [generate_loop].
  - destruct (word_count (markov_text st) <? limit) eqn:E; [|discriminate].
    apply Nat.ltb_lt in E. lia.
  - destruct (word_count (markov_text st) <? limit) eqn:E; [|discriminate].
    destruct (get_next_word word_pairs (first_key st) min_length (source st))
      as [[w rng']|e|] eqn:G; cbn [bind].
    + apply IH. cbn [markov_text].
      pose proof (word_count_grows (markov_text st) w). lia.
    + discriminate.
    + now apply backoff_loop_returns in G.
Qed.

Lemma clean_model_get (word_pairs : Model) (k : nat) (table : Table) (c : Key)
  (following : list Token) :
  clean_model word_pairs = true ->
  model_get k word_pairs = Some table ->
  table_get c table = Some following ->
  forallb space_free following = true.
Proof.
  intros Hc Ht Hf. apply dict_get_In in Ht. apply dict_get_In in Hf.
  unfold clean_model in Hc. rewrite forallb_forall in Hc.
  specialize (Hc _ Ht). cbn [snd] in Hc.
  unfold clean_table in Hc. rewrite forallb_forall in Hc.
  exact (Hc _ Hf).
Qed.

Lemma get_next_word_space_free (word_pairs : Model) (key_id : Key)
  (min_length : nat) (rng rng' : Rng) (w : Token) :
  clean_model word_pairs = true ->
  get_next_word word_pairs key_id min_length rng = Ok (w, rng') ->
  space_free w = true.
Proof.
  intros Hc Hg. apply backoff_loop_In in Hg.
  destruct Hg as (k & table & c & following & Ht & Hf & Hw).
  pose proof (clean_model_get word_pairs k table c following Hc Ht Hf) as H.
  rewrite forallb_forall in H. now apply H.
Qed.

(** The text stays the joined sequence of its tokens, and the loop stops
    at [limit] tokens, or at once when the text already has that many. *)
Lemma generate_loop_tokens (word_pairs : Model) (limit min_length : nat) :
  clean_model word_pairs = true ->
  forall (fuel : nat) (key : Key) (toks : list Token) (rng : Rng) (st : gen_state),
    toks <> [] ->
    forallb space_free toks = true ->
    generate_loop fuel word_pairs limit min_length (GenState key (join " " toks) rng)
      = Ok st ->
    exists more,
      markov_text st = join " " (toks ++ more) /\
      forallb space_free (toks ++ more) = true /\
      List.length (toks ++ more) = Nat.max limit (List.length toks) /\
      (limit <= List.length toks -> more = [] /\ source st = rng).
Proof.
  intros Hc. induction fuel as [|fuel IH]; intros key toks rng st Hne Hsf;
    cbn [generate_loop markov_text first_key source]; unfold word_count;
    rewrite (split_join toks Hne Hsf); unfold Token in *;
    destruct (List.length toks <? limit) eqn:E; cbv iota; intros Hloop.
  - discriminate Hloop.
  - apply Nat.ltb_ge in E. injection Hloop as <-. exists []. rewrite app_nil_r.
    cbn [markov_text source]. repeat split; try assumption. lia.
  - apply Nat.ltb_lt in E.
    destruct (get_next_word word_pairs key min_length rng) as [[w rng']|e|] eqn:G;
      cbn [bind] in Hloop; try discriminate Hloop.
    rewrite <- (join_snoc toks w Hne) in Hloop.
    pose proof (get_next_word_space_free _ _ _ _ _ _ Hc G) as Hw.
    apply IH in Hloop.
    + destruct Hloop as (more & H1 & H2 & H3 & _).
      exists (w :: more). rewrite <- app_assoc in H1, H2, H3. cbn [app] in H1, H2, H3.
      split; [exact H1|]. split; [exact H2|].
      rewrite !length_app in H3. rewrite length_app.
      cbn [List.length] in H3 |- *. unfold Token in *. split; lia.
    + now destruct toks.
    + unfold Token in *. rewrite forallb_app, Hsf. cbn. now rewrite Hw.
  - apply Nat.ltb_ge in E. injection Hloop as <-. exists []. rewrite app_nil_r.
    cbn [markov_text source]. repeat split; try assumption. lia.
Qed.

(* ================================================================= *)
(** ** The outcomes of the search and of the loop *)

Lemma random_choice_nonempty {A : Type} (seq : list A) (rng : Rng) :
  seq <> [] -> exists x, random_choice seq rng = Ok (x, advance rng) /\ In x seq.
Proof.
  intros Hne. destruct seq as [|y seq]; [congruence|].
  unfold random_choice, subscript.
  destruct (nth_error (y :: seq) (randbelow rng (List.length (y :: seq))))
    as [x|] eqn:En.
  - exists x. split; [reflexivity|]. eapply nth_error_In, En.
  - apply nth_error_None in En. unfold randbelow in En.
    pose proof (Nat.mod_upper_bound (rng 0 (List.length (y :: seq)))
                  (List.length (y :: seq))) as Hb.
    simpl in Hb, En. lia.
Qed.

Lemma built_lists_nonempty (words : list Token) (N : nat) (m : Model) :
  collect_dict words N = Ok m -> lists_nonempty m.
Proof.
  intros Hm k table c following Ht Hf.
  rewrite (built_table_get words N m k table c Hm Ht) in Hf.
  apply extend_None_Some in Hf. now destruct Hf as [-> Hf].
Qed.

Lemma backoff_loop_outcome (word_pairs : Model) (min_length : nat) (rng : Rng)
  (passes : nat) :
  lists_nonempty word_pairs ->
  forall key_id : Key,
    (exists w, backoff_loop passes word_pairs key_id min_length rng
               = Ok (w, advance rng)) \/
    backoff_loop passes word_pairs key_id min_length rng = Raise KeyError.
Proof.
  intros Hne. induction passes as [|passes IH]; intros key_id; cbn [backoff_loop].
  - unfold backoff_last, dict_item.
    destruct (dict_get Nat.eq_dec (List.length key_id) word_pairs) as [table|] eqn:Et;
      cbn [bind]; [|now right].
    destruct (dict_get Key_eq_dec key_id table) as [following|] eqn:Ef;
      cbn [bind]; [|now right].
    left. destruct (random_choice_nonempty following rng) as (w & Hw & _).
    + exact (Hne _ _ _ _ Et Ef).
    + now exists w.
  - unfold backoff_pass.
    destruct (model_get (List.length key_id) word_pairs) as [table|] eqn:Et;
      [|now right].
    destruct (table_get key_id table) as [following|] eqn:Ef; [|apply IH].
    destruct (min_length <=? List.length following); [|apply IH].
    left. destruct (random_choice_nonempty following rng) as (w & Hw & _).
    + exact (Hne _ _ _ _ Et Ef).
    + now exists w.
Qed.

(** With non-empty lists in the model, the loop returns or raises
    [KeyError], whenever the fuel covers the words still to come. *)
Lemma generate_loop_outcome (word_pairs : Model) (limit min_length : nat) :
  lists_nonempty word_pairs ->
  forall (fuel : nat) (st : gen_state),
    limit <= fuel + word_count (markov_text st) ->
    (exists st', generate_loop fuel word_pairs limit min_length st = Ok st') \/
    generate_loop fuel word_pairs limit min_length st = Raise KeyError.
Proof.
  intros Hne. induction fuel as [|fuel IH]; intros st Hfuel; cbn [generate_loop].
  - destruct (word_count (markov_text st) <? limit) eqn:E; [|left; now exists st].
    apply Nat.ltb_lt in E. lia.
  - destruct (word_count (markov_text st) <? limit) eqn:E; [|left; now exists st].
    destruct (backoff_loop_outcome word_pairs min_length (source st)
                (List.length (first_key st)) Hne (first_key st)) as [(w & Hw)|Hk];
      unfold get_next_word.
    + rewrite Hw. cbn [bind]. apply IH. cbn [markov_text].
      pose proof (word_count_grows (markov_text st) w). lia.
    + rewrite Hk. now right.
Qed.

(* ================================================================= *)
(** ** Seed selection and the length of the output *)

Lemma filter_keys_spec (isupper : ascii -> bool) (l : list Key) :
  (forall key, In key l -> key <> []) ->
  filter_keys isupper l = Ok (filter (starts_upper isupper) l).
Proof.
  induction l as [|key l IH]; intros Hne; [reflexivity|].
  cbn [filter_keys filter]. rewrite IH by (intros k Hk; apply Hne; now right).
  destruct key as [|tok key]; [now destruct (Hne [] (or_introl eq_refl))|].
  unfold capitalized, subscript. cbn [nth_error bind starts_upper].
  destruct tok as [|c tok]; cbn [bind]; [reflexivity|].
  now destruct (isupper c).
Qed.

Lemma capitalized_keys_spec (isupper : ascii -> bool) (words : Model) (table : Table) :
  top_table words = Ok table ->
  (forall key, In key (keys table) -> key <> []) ->
  capitalized_keys isupper words = Ok (filter (starts_upper isupper) (keys table)).
Proof.
  intros Ht Hne. unfold capitalized_keys. rewrite Ht. cbn [bind].
  now apply filter_keys_spec.
Qed.

(** C5.  For every model whose order-N table (the table at the largest
    order, a dictionary with non-empty tuples as keys) is [table], and
    whatever [isupper] is: the seed candidates are, without repetition,
    exactly the keys of [table] whose first token begins with an
    uppercase letter.  When there is none, [generate_text] raises at the
    draw of the seed ([random.choice] on the empty list, an
    [IndexError]) and returns no text.  Otherwise the seed is the
    candidate at the index the random source draws below the number of
    candidates, each candidate stands at exactly one index, so that an
    index drawn uniformly gives a seed drawn uniformly, and the
    generation goes on from the seed. *)
Theorem seed_selection (isupper : ascii -> bool) (word_pairs words : Model)
  (table : Table) (limit min_length : nat) (rng : Rng) :
  top_table words = Ok table ->
  NoDup (keys table) ->
  (forall key, In key (keys table) -> key <> []) ->
  exists candidates,
    capitalized_keys isupper words = Ok candidates /\
    NoDup candidates /\
    (forall key, In key candidates <->
                 In key (keys table) /\ starts_upper isupper key = true) /\
    (forall key, In key candidates ->
       exists i, i < List.length candidates /\
                 nth_error candidates i = Some key /\
                 forall j, nth_error candidates j = Some key -> j = i) /\
    (candidates = [] ->
       generate_state isupper word_pairs words limit min_length rng = Raise IndexError /\
       generate_text isupper word_pairs words limit min_length rng = Raise IndexError) /\
    (candidates <> [] ->
       exists seed,
         randbelow rng (List.length candidates) < List.length candidates /\
         nth_error candidates (randbelow rng (List.length candidates)) = Some seed /\
         generate_state isupper word_pairs words limit min_length rng =
           generate_loop limit word_pairs limit min_length
             (GenState seed (join " " seed) (advance rng))).
Proof.
  intros Ht Hnd Hne.
  exists (filter (starts_upper isupper) (keys table)).
  pose proof (capitalized_keys_spec isupper words table Ht Hne) as Hc.
  assert (Hnd' : NoDup (filter (starts_upper isupper) (keys table)))
    by now apply NoDup_filter.
  split; [exact Hc|]. split; [exact Hnd'|].
  split; [intros key; apply filter_In|].
  split.
  { intros key Hkey. apply In_nth_error in Hkey. destruct Hkey as (i & Hi).
    assert (Hlt : i < List.length (filter (starts_upper isupper) (keys table))).
    { apply nth_error_Some. congruence. }
    exists i. split; [exact Hlt|]. split; [exact Hi|].
    intros j Hj. symmetry.
    apply (proj1 (NoDup_nth_error _) Hnd' i j Hlt). congruence. }
  unfold generate_text, generate_state. rewrite Hc. cbn [bind].
  destruct (filter (starts_upper isupper) (keys table)) as [|k ks] eqn:E; split.
  - intros _. split; reflexivity.
  - congruence.
  - discriminate.
  - intros _.
    assert (Hlt : randbelow rng (List.length (k :: ks)) < List.length (k :: ks)).
    { unfold randbelow. apply Nat.mod_upper_bound. simpl. lia. }
    destruct (nth_error (k :: ks) (randbelow rng (List.length (k :: ks))))
      as [seed|] eqn:En.
    + exists seed. split; [exact Hlt|]. split; [reflexivity|].
      unfold random_choice, subscript. rewrite En. reflexivity.
    + apply nth_error_None in En. lia.
Qed.

Lemma seed_selection_witness :
  exists candidates,
    top_table model9 = Ok table9_2 /\
    capitalized_keys ascii_isupper model9 = Ok candidates /\
    (forall key, In key candidates <->
                 In key (keys table9_2) /\ starts_upper ascii_isupper key = true).
Proof.
  destruct (seed_selection ascii_isupper model9 model9 table9_2 4 1 pick_last)
    as (candidates & Hc & _ & Hin & _).
  - reflexivity.
  - repeat constructor; simpl; intuition discriminate.
  - intros key Hk. simpl in Hk.
    repeat (destruct Hk as [<-|Hk]; [discriminate|]). destruct Hk.
  - exists candidates. split; [reflexivity|]. split; [exact Hc | exact Hin].
Defined.

Lemma generate_loop_done (word_pairs : Model) (limit min_length fuel : nat)
  (st : gen_state) :
  limit <= word_count (markov_text st) ->
  generate_loop fuel word_pairs limit min_length st = Ok st.
Proof.
  intros H. apply Nat.ltb_ge in H. destruct fuel; cbn [generate_loop]; now rewrite H.
Qed.

(** C3, as the code has it.  For every model whose lists of successors
    are not empty and hold no token with a space, and whose order-N
    table has keys of [N >= 1] tokens without a space: [generate_text]
    never runs forever.  With no capitalized key in the order-N table it
    raises [IndexError]; otherwise it returns a text or raises
    [KeyError], and it returns when [limit <= N].  Whenever it returns,
    the text before the rendering is the joined sequence of exactly
    [max limit N] tokens, which begins with the [N] tokens of the seed.
    In particular with [limit <= N] the output is the whole seed, all
    its [N] tokens, and the random source has been used for the seed
    only. *)
Theorem generate_output_length (isupper : ascii -> bool)
  (word_pairs words : Model) (table : Table)
  (N limit min_length : nat) (rng : Rng) :
  1 <= N ->
  clean_model word_pairs = true ->
  lists_nonempty word_pairs ->
  top_table words = Ok table ->
  (forall key, In key (keys table) ->
     List.length key = N /\ forallb space_free key = true) ->
  generate_state isupper word_pairs words limit min_length rng <> OutOfFuel /\
  generate_text isupper word_pairs words limit min_length rng <> OutOfFuel /\
  (filter (starts_upper isupper) (keys table) = [] ->
     generate_text isupper word_pairs words limit min_length rng = Raise IndexError) /\
  (filter (starts_upper isupper) (keys table) <> [] ->
     (exists text,
        generate_text isupper word_pairs words limit min_length rng = Ok text) \/
     generate_text isupper word_pairs words limit min_length rng = Raise KeyError) /\
  (filter (starts_upper isupper) (keys table) <> [] -> limit <= N ->
     exists text,
       generate_text isupper word_pairs words limit min_length rng = Ok text) /\
  forall st,
    generate_state isupper word_pairs words limit min_length rng = Ok st ->
    generate_text isupper word_pairs words limit min_length rng = Ok (render (markov_text st)) /\
    markov_text st = join " " (output_tokens st) /\
    List.length (output_tokens st) = Nat.max limit N /\
    exists seed,
      In seed (keys table) /\ starts_upper isupper seed = true /\
      firstn N (output_tokens st) = seed /\
      (limit <= N -> output_tokens st = seed /\ source st = advance rng).
Proof.
  intros HN Hclean Hlists Ht Hkeys.
  assert (Hne : forall key, In key (keys table) -> key <> []).
  { intros key Hk ->. destruct (Hkeys [] Hk) as [Hl _]. simpl in Hl. lia. }
  pose proof (capitalized_keys_spec isupper words table Ht Hne) as Hc.
  unfold generate_text, generate_state. rewrite Hc. cbn [bind].
  destruct (filter (starts_upper isupper) (keys table)) as [|k ks] eqn:Ecand.
  { cbn [random_choice bind].
    split; [discriminate|]. split; [discriminate|]. split; [reflexivity|].
    split; [congruence|]. split; [congruence|]. intros st; discriminate. }
  destruct (random_choice_nonempty (k :: ks) rng) as (seed & Er & Hseed);
    [discriminate|].
  rewrite Er. cbn [bind].
  rewrite <- Ecand in Hseed. apply filter_In in Hseed. destruct Hseed as [Hin Hup].
  destruct (Hkeys seed Hin) as [Hlen Hsf].
  assert (Hseed_ne : seed <> []) by now apply Hne.
  assert (Hcount : word_count (join " " seed) = N).
  { unfold word_count. now rewrite (split_join seed Hseed_ne Hsf). }
  destruct (generate_loop_outcome word_pairs limit min_length Hlists limit
              (GenState seed (join " " seed) (advance rng))) as [(st0 & El)|El].
  { cbn [markov_text]. lia. }
  2: { rewrite El. cbn [bind].
       split; [discriminate|]. split; [discriminate|]. split; [discriminate|].
       split; [intros _; now right|]. split; [|intros st; discriminate].
       intros _ Hlim.
       rewrite generate_loop_done in El by (cbn [markov_text]; lia).
       discriminate El. }
  rewrite El. cbn [bind].
  split; [discriminate|]. split; [discriminate|]. split; [discriminate|].
  split; [intros _; left; eexists; reflexivity|].
  split; [intros _ _; eexists; reflexivity|].
  intros st [= <-]. split; [reflexivity|].
  destruct (generate_loop_tokens word_pairs limit min_length Hclean
              limit seed seed (advance rng) st0 Hseed_ne Hsf El)
    as (more & H1 & H2 & H3 & H4).
  assert (Hout : output_tokens st0 = seed ++ more).
  { unfold output_tokens. rewrite H1. apply split_join; [|exact H2].
    now destruct seed. }
  rewrite Hout. split; [exact H1|]. split; [now rewrite H3, Hlen|].
  exists seed. split; [exact Hin|]. split; [exact Hup|]. split.
  - rewrite firstn_app, <- Hlen, firstn_all, Nat.sub_diag. simpl.
    now rewrite app_nil_r.
  - intros Hlim. destruct H4 as [-> Hs]; [lia|].
    now rewrite app_nil_r.
Qed.

Lemma collect_dict_corpus9 : collect_dict corpus9 2 = Ok model9.
Proof. reflexivity. Qed.

Lemma generate_output_length_witness :
  exists st,
    generate_state ascii_isupper model9 model9 4 1 pick_last = Ok st /\
    List.length (output_tokens st) = Nat.max 4 2.
Proof.
  destruct (generate_output_length ascii_isupper model9 model9 table9_2 2 4 1 pick_last)
    as (_ & _ & _ & _ & _ & H).
  - lia.
  - reflexivity.
  - exact (built_lists_nonempty corpus9 2 model9 eq_refl).
  - reflexivity.
  - intros key Hk. simpl in Hk.
    repeat (destruct Hk as [<-|Hk]; [split; reflexivity|]). destruct Hk.
  - eexists. split; [reflexivity|].
    exact (proj1 (proj2 (proj2 (H _ eq_refl)))).
Defined.

(** C3, as the claim has it, fails (the tokens are ASCII, where
    [str.isupper] is [ascii_isupper]).  With [limit = 1] on the model of
    [corpus9] with [N = 2] the output is the whole seed [A b], two tokens
    and not one; and in the model built from [A b c] the search raises
    [KeyError] at the context [(b, c)], so that no text of four tokens is
    returned. *)
Lemma generate_keeps_the_whole_seed :
  (exists st,
     generate_state ascii_isupper model9 model9 1 1 pick_last = Ok st /\
     output_tokens st = ["A"; "b"] /\
     List.length (output_tokens st) <> 1 /\
     generate_text ascii_isupper model9 model9 1 1 pick_last = Ok "A b") /\
  (exists m,
     collect_dict ["A"; "b"; "c"] 2 = Ok m /\
     generate_text ascii_isupper m m 4 1 pick_last = Raise KeyError).
Proof.
  split.
  - eexists. split; [reflexivity|]. split; [reflexivity|].
    split; [simpl; discriminate | reflexivity].
  - eexists. split; reflexivity.
Qed.

(* ================================================================= *)
(** ** Built models meet the conditions on tokens *)

Lemma forallb_firstn {A : Type} (f : A -> bool) (n : nat) (l : list A) :
  forallb f l = true -> forallb f (firstn n l) = true.
Proof.
  intros H. rewrite <- (firstn_skipn n l), forallb_app in H.
  now apply andb_true_iff in H.
Qed.

Lemma forallb_skipn {A : Type} (f : A -> bool) (n : nat) (l : list A) :
  forallb f l = true -> forallb f (skipn n l) = true.
Proof.
  intros H. rewrite <- (firstn_skipn n l), forallb_app in H.
  now apply andb_true_iff in H.
Qed.

Lemma nth_space_free (words : list Token) (i : nat) :
  forallb space_free words = true ->
  space_free (nth i words EmptyString) = true.
Proof.
  intros H. destruct (nth_in_or_default i words EmptyString) as [Hin| ->];
    [|reflexivity].
  rewrite forallb_forall in H. now apply H.
Qed.

Lemma built_model_clean (words : list Token) (N : nat) (m : Model) :
  forallb space_free words = true ->
  collect_dict words N = Ok m ->
  clean_model m = true.
Proof.
  intros Hw Hm. unfold clean_model. apply forallb_forall.
  intros [k table] Hin. cbn [snd].
  assert (Hk : model_get k m = Some table).
  { apply dict_In_get; [|exact Hin].
    destruct (collect_dict_spec words N) as (m' & E & Hkeys & _).
    rewrite Hm in E. injection E as <-. rewrite Hkeys. apply seq_NoDup. }
  unfold clean_table. apply forallb_forall. intros [c l] Hcl. cbn [snd].
  apply dict_In_get with (K_eq_dec := Key_eq_dec) in Hcl;
    [| exact (built_table_NoDup words N m k table Hm Hk)].
  change (table_get c table = Some l) in Hcl.
  rewrite (built_table_get words N m k table c Hm Hk) in Hcl.
  apply extend_None_Some in Hcl. destruct Hcl as [-> _].
  unfold followers. apply forallb_forall. intros w Hin'.
  apply in_map_iff in Hin'. destruct Hin' as (i & <- & _).
  now apply nth_space_free.
Qed.

Lemma built_model_keys (words : list Token) (N j : nat) (m : Model)
  (table : Table) (key : Key) :
  forallb space_free words = true ->
  collect_dict words N = Ok m ->
  model_get j m = Some table ->
  In key (keys table) ->
  List.length key = j /\ forallb space_free key = true.
Proof.
  intros Hw Hm Ht Hk.
  destruct (built_table words N m j table Hm Ht) as [Hj _].
  apply (built_table_keys words N m j table key Hm Ht) in Hk.
  destruct Hk as (i & Hi & <-). split.
  - apply slice_length. lia.
  - unfold slice. now apply forallb_firstn, forallb_skipn.
Qed.

(* ================================================================= *)
(** ** More on the tables of [collect_dict] *)

Lemma total_successors_app (t1 t2 : Table) :
  total_successors (t1 ++ t2) = total_successors t1 + total_successors t2.
Proof. unfold total_successors. now rewrite map_app, list_sum_app. Qed.

Lemma total_successors_append (key : Key) (w : Token) (table : Table) :
  table_mem key table = true ->
  total_successors (dict_modify Key_eq_dec (fun l => l ++ [w]) key table) =
  S (total_successors table).
Proof.
  unfold table_mem, dict_mem.
  induction table as [|[k l] table IH]; simpl; [discriminate|].
  destruct (Key_eq_dec key k) as [->|Hne]; intros H.
  - unfold total_successors. simpl. rewrite length_app. simpl. lia.
  - specialize (IH H). unfold total_successors in *. simpl. rewrite IH. lia.
Qed.

Lemma total_successors_new (key : Key) (w : Token) (table : Table) :
  table_mem key table = false ->
  total_successors (dict_set Key_eq_dec key [w] table) = S (total_successors table).
Proof.
  intros H. unfold dict_set. unfold table_mem in H. rewrite H.
  rewrite total_successors_app. unfold total_successors at 2. simpl. lia.
Qed.

Lemma collect_steps_total (words : list Token) (N j : nat) (ps : list nat) :
  forall sub : Table,
    (forall i, In i ps -> i + N < List.length words) ->
    exists sub',
      for_each (collect_step words N j) ps sub = Ok sub' /\
      total_successors sub' = total_successors sub + List.length ps.
Proof.
  induction ps as [|i ps IH]; intros sub Hps; simpl.
  - exists sub. split; [reflexivity | lia].
  - assert (Hi : i + N < List.length words) by (apply Hps; now left).
    unfold collect_step at 1.
    rewrite (subscript_in_range words (i + N) EmptyString Hi).
    destruct (table_mem (slice words i j) sub) eqn:Hmem; cbn [bind].
    + destruct (IH (dict_modify Key_eq_dec
                      (fun l => l ++ [nth (i + N) words EmptyString])
                      (slice words i j) sub)) as (sub' & E & T).
      { intros k Hk. apply Hps. now right. }
      exists sub'. split; [exact E|].
      rewrite T, total_successors_append by exact Hmem. lia.
    + destruct (IH (dict_set Key_eq_dec (slice words i j)
                      [nth (i + N) words EmptyString] sub)) as (sub' & E & T).
      { intros k Hk. apply Hps. now right. }
      exists sub'. split; [exact E|].
      rewrite T, total_successors_new by exact Hmem. lia.
Qed.

(** X1.  Every table of a built model records each training window
    once: for every order [j] in [1..N] the lists of table [j] hold
    [len(words) - N] successors altogether (none when the corpus has at
    most [N] tokens). *)
Theorem collect_dict_counts_every_window (words : list Token) (N j : nat) :
  1 <= j <= N ->
  exists m table,
    collect_dict words N = Ok m /\
    model_get j m = Some table /\
    total_successors table = List.length words - N.
Proof.
  intros Hj.
  destruct (collect_dict_spec words N) as (m & Hm & _ & Hin & _).
  destruct (Hin j Hj) as (table & Ht & Hg).
  exists m, table. split; [exact Hm|]. split; [exact Hg|].
  destruct (collect_steps_total words N j (starts words N) []) as (t & E & T).
  { intros i Hi. apply In_starts in Hi. lia. }
  unfold collect_table in Ht. fold (starts words N) in Ht.
  rewrite E in Ht. injection Ht as <-.
  rewrite T. unfold starts. rewrite length_seq. reflexivity.
Qed.

Lemma collect_dict_counts_every_window_witness :
  exists m table,
    collect_dict corpus9 2 = Ok m /\
    model_get 1 m = Some table /\
    total_successors table = 6.
Proof.
  apply (collect_dict_counts_every_window corpus9 2 1). lia.
Defined.

Lemma In_firstn {A : Type} (x : A) (n : nat) (l : list A) :
  In x (firstn n l) -> In x l.
Proof.
  intros H. rewrite <- (firstn_skipn n l). apply in_or_app. now left.
Qed.

Lemma In_skipn {A : Type} (x : A) (n : nat) (l : list A) :
  In x (skipn n l) -> In x l.
Proof.
  intros H. rewrite <- (firstn_skipn n l). apply in_or_app. now right.
Qed.

Lemma slice_incl (words : list Token) (i j : nat) : incl (slice words i j) words.
Proof. intros x Hx. unfold slice in Hx. eapply In_skipn, In_firstn, Hx. Qed.

Lemma followers_incl (words : list Token) (N j : nat) (c : Key) :
  incl (followers words N j c (starts words N)) words.
Proof.
  intros w Hw. unfold followers in Hw. apply in_map_iff in Hw.
  destruct Hw as (i & <- & Hi). apply positions_In in Hi. destruct Hi as [Hi _].
  apply In_starts in Hi. apply nth_In. lia.
Qed.

(** X2.  A built model holds nothing but tokens of the corpus: in every
    table, every token of every key and every recorded successor occurs
    in [words]. *)
Theorem model_tokens_are_corpus_tokens (words : list Token) (N : nat) :
  exists m,
    collect_dict words N = Ok m /\
    forall (j : nat) (table : Table) (c : Key) (l : list Token),
      model_get j m = Some table -> In (c, l) table ->
      incl c words /\ incl l words.
Proof.
  destruct (collect_dict_spec words N) as (m & Hm & _).
  exists m. split; [exact Hm|].
  intros j table c l Ht Hin. split.
  - assert (Hk : In c (keys table)).
    { change c with (fst (c, l)). now apply in_map. }
    apply (built_table_keys words N m j table c Hm Ht) in Hk.
    destruct Hk as (i & _ & <-). apply slice_incl.
  - apply dict_In_get with (K_eq_dec := Key_eq_dec) in Hin;
      [| exact (built_table_NoDup words N m j table Hm Ht)].
    change (table_get c table = Some l) in Hin.
    rewrite (built_table_get words N m j table c Hm Ht) in Hin.
    apply extend_None_Some in Hin. destruct Hin as [-> _].
    apply followers_incl.
Qed.

Lemma model_tokens_are_corpus_tokens_witness :
  incl ["c"; "d"] corpus9.
Proof.
  destruct (model_tokens_are_corpus_tokens corpus9 2) as (m & Hm & H).
  rewrite collect_dict_corpus9 in Hm. injection Hm as <-.
  refine (proj2 (H 2 table9_2 ["A"; "b"] ["c"; "d"] eq_refl _)).
  left. reflexivity.
Defined.

Lemma firstn_slice (words : list Token) (i j N : nat) :
  j <= N -> firstn j (slice words i N) = slice words i j.
Proof.
  intros H. unfold slice. rewrite firstn_firstn. f_equal. lia.
Qed.

(** X3.  The tables of the lower orders are made of the beginnings of
    the order-N contexts: for [j] in [1..N], the keys of table [j] are
    exactly the first [j] tokens of the keys of table [N], and whatever
    is recorded as a successor of an order-N context is also recorded as
    a successor of its first [j] tokens in table [j]. *)
Theorem lower_orders_are_prefixes (words : list Token) (N j : nat) :
  1 <= j <= N ->
  exists m tj tN,
    collect_dict words N = Ok m /\
    model_get j m = Some tj /\
    model_get N m = Some tN /\
    (forall c, In c (keys tj) <-> exists c', In c' (keys tN) /\ firstn j c' = c) /\
    (forall c' l', table_get c' tN = Some l' ->
       exists l, table_get (firstn j c') tj = Some l /\ incl l' l).
Proof.
  intros Hj.
  destruct (collect_dict_spec words N) as (m & Hm & _ & Hin & _).
  destruct (Hin j Hj) as (tj & _ & Gj).
  destruct (Hin N) as (tN & _ & GN); [lia|].
  exists m, tj, tN. split; [exact Hm|]. split; [exact Gj|]. split; [exact GN|].
  split.
  - intros c. rewrite (built_table_keys words N m j tj c Hm Gj). split.
    + intros (i & Hi & <-). exists (slice words i N). split.
      * apply (built_table_keys words N m N tN _ Hm GN). now exists i.
      * apply firstn_slice. lia.
    + intros (c' & Hc' & <-).
      apply (built_table_keys words N m N tN c' Hm GN) in Hc'.
      destruct Hc' as (i & Hi & <-). exists i. split; [exact Hi|].
      symmetry. apply firstn_slice. lia.
  - intros c' l' Hl'.
    rewrite (built_table_get words N m N tN c' Hm GN) in Hl'.
    apply extend_None_Some in Hl'. destruct Hl' as [-> Hne].
    rewrite (built_table_get words N m j tj _ Hm Gj).
    assert (Hsub : incl (followers words N N c' (starts words N))
                        (followers words N j (firstn j c') (starts words N))).
    { intros w Hw. unfold followers in *. apply in_map_iff in Hw.
      destruct Hw as (i & <- & Hi). apply in_map_iff. exists i.
      split; [reflexivity|]. apply positions_In in Hi. apply positions_In.
      destruct Hi as [Hi <-]. split; [exact Hi|].
      symmetry. apply firstn_slice. lia. }
    exists (followers words N j (firstn j c') (starts words N)).
    split; [|exact Hsub].
    apply extend_None_Some. split; [reflexivity|].
    destruct (followers words N N c' (starts words N)) as [|w ws] eqn:E;
      [congruence|].
    intros Hnil. specialize (Hsub w (or_introl eq_refl)).
    rewrite Hnil in Hsub. destruct Hsub.
Qed.

Lemma lower_orders_are_prefixes_witness :
  exists m tj tN,
    collect_dict corpus9 2 = Ok m /\
    model_get 1 m = Some tj /\
    model_get 2 m = Some tN /\
    (In ["b"] (keys tj) <-> exists c', In c' (keys tN) /\ firstn 1 c' = ["b"]).
Proof.
  destruct (lower_orders_are_prefixes corpus9 2 1) as (m & tj & tN & H1 & H2 & H3 & H4 & _);
    [lia|].
  exists m, tj, tN. repeat split; try assumption; apply (H4 ["b"]).
Defined.

(* ================================================================= *)
(** ** More on the backoff search *)

Lemma backoff_pass_supported (word_pairs : Model) (key_id : Key)
  (min_length : nat) (rng : Rng) (table : Table) (following : list Token) :
  model_get (List.length key_id) word_pairs = Some table ->
  table_get key_id table = Some following ->
  min_length <= List.length following ->
  backoff_pass word_pairs key_id min_length rng = Return (random_choice following rng).
Proof.
  intros Ht Hf Hl. unfold backoff_pass. rewrite Ht, Hf.
  apply Nat.leb_le in Hl. now rewrite Hl.
Qed.

Lemma backoff_loop_longest (word_pairs : Model) (min_length : nat) (rng : Rng)
  (k : nat) (table : Table) (following : list Token) (passes : nat) :
  forall key_id : Key,
    1 <= k <= List.length key_id ->
    List.length key_id - k < passes ->
    has_orders word_pairs (List.length key_id) ->
    model_get k word_pairs = Some table ->
    table_get (trailing k key_id) table = Some following ->
    min_length <= List.length following ->
    (forall k', k < k' <= List.length key_id ->
       ~ supported word_pairs min_length (trailing k' key_id)) ->
    backoff_loop passes word_pairs key_id min_length rng =
    random_choice following rng.
Proof.
  induction passes as [|passes IH]; intros key_id Hk Hp Hord Ht Hf Hl Hns; [lia|].
  cbn [backoff_loop].
  destruct (Nat.eq_dec k (List.length key_id)) as [->|Hne].
  - rewrite trailing_all in Hf.
    now rewrite (backoff_pass_supported word_pairs key_id min_length rng table following).
  - destruct (Hord (List.length key_id)) as (t & Ht'); [lia|].
    rewrite (backoff_pass_unsupported word_pairs key_id min_length rng t Ht').
    + assert (Hs := shorten_length key_id (Nat.le_trans _ _ _ (proj1 Hk) (proj2 Hk))).
      apply IH.
      * lia.
      * lia.
      * intros k' Hk'. apply Hord. lia.
      * exact Ht.
      * rewrite trailing_shorten by lia. exact Hf.
      * exact Hl.
      * intros k' Hk'. rewrite trailing_shorten by lia. apply Hns. lia.
    + rewrite <- (trailing_all key_id) at 1. apply Hns. lia.
Qed.

(** X4.  The search answers from the longest trailing part of the
    context that has support: when the model has the tables of the
    orders up to the length of the context, the trailing [k] tokens are
    a key of table [k] with at least [min_length] successors, and no
    longer trailing part has support, [get_next_word] is
    [random.choice] on the successors of those [k] tokens. *)
Theorem get_next_word_longest_supported (word_pairs : Model) (key_id : Key)
  (min_length : nat) (rng : Rng) (k : nat) (table : Table)
  (following : list Token) :
  1 <= k <= List.length key_id ->
  has_orders word_pairs (List.length key_id) ->
  model_get k word_pairs = Some table ->
  table_get (trailing k key_id) table = Some following ->
  min_length <= List.length following ->
  (forall k', k < k' <= List.length key_id ->
     ~ supported word_pairs min_length (trailing k' key_id)) ->
  get_next_word word_pairs key_id min_length rng = random_choice following rng.
Proof.
  intros Hk Hord Ht Hf Hl Hns. unfold get_next_word.
  apply (backoff_loop_longest word_pairs min_length rng k table following);
    try assumption. lia.
Qed.

Lemma get_next_word_longest_supported_witness :
  get_next_word model9 ["c"; "b"] 2 pick_last = random_choice ["."; "."] pick_last.
Proof.
  apply (get_next_word_longest_supported model9 ["c"; "b"] 2 pick_last 1 table9_1).
  - simpl. lia.
  - intros k Hk. simpl in Hk. assert (Hk' : k = 1 \/ k = 2) by lia.
    destruct Hk' as [-> | ->]; eexists; reflexivity.
  - reflexivity.
  - reflexivity.
  - simpl. lia.
  - intros k' Hk' (t & f & Ht & Hf & _). simpl in Hk'.
    assert (k' = 2) by lia. subst k'.
    vm_compute in Ht. injection Ht as <-. vm_compute in Hf. discriminate.
Defined.

Lemma shorten_skipn (key_id : Key) : exists n, shorten key_id = skipn n key_id.
Proof.
  unfold shorten. destruct (1 <? List.length key_id); [now exists 1 | now exists 0].
Qed.

Lemma backoff_loop_draw (word_pairs : Model) (min_length : nat) (rng rng' : Rng)
  (w : Token) (passes : nat) :
  forall key_id : Key,
    backoff_loop passes word_pairs key_id min_length rng = Ok (w, rng') ->
    rng' = advance rng /\
    exists n table following,
      model_get (List.length (skipn n key_id)) word_pairs = Some table /\
      table_get (skipn n key_id) table = Some following /\
      In w following.
Proof.
  induction passes as [|passes IH]; intros key_id; cbn [backoff_loop].
  - unfold backoff_last, dict_item.
    destruct (dict_get Nat.eq_dec (List.length key_id) word_pairs) as [table|] eqn:Et;
      cbn [bind]; [|discriminate].
    destruct (dict_get Key_eq_dec key_id table) as [following|] eqn:Ef;
      cbn [bind]; [|discriminate].
    intros H. apply random_choice_In in H. destruct H as [Hw ->].
    split; [reflexivity|]. exists 0, table, following. tauto.
  - destruct (backoff_pass word_pairs key_id min_length rng) as [r|key_id'] eqn:E.
    + unfold backoff_pass in E.
      destruct (model_get (List.length key_id) word_pairs) as [table|] eqn:Et;
        [|injection E as <-; discriminate].
      destruct (table_get key_id table) as [following|] eqn:Ef; [|discriminate].
      destruct (min_length <=? List.length following); [|discriminate].
      injection E as <-. intros H. apply random_choice_In in H.
      destruct H as [Hw ->]. split; [reflexivity|].
      exists 0, table, following. tauto.
    + apply backoff_pass_continue in E. subst key_id'. intros H.
      apply IH in H. destruct H as (Hr & n & table & following & Ht & Hf & Hw).
      split; [exact Hr|].
      destruct (shorten_skipn key_id) as (n0 & En0). rewrite En0 in Ht, Hf.
      rewrite skipn_skipn in Ht, Hf.
      exists (n + n0), table, following. tauto.
Qed.

(** X5.  A call of [get_next_word] that returns has used the random
    source once, and the token it returns is a recorded successor of a
    trailing part of the context, read in the table whose order is the
    length of that part. *)
Theorem get_next_word_returns_recorded_successor (word_pairs : Model)
  (key_id : Key) (min_length : nat) (rng rng' : Rng) (w : Token) :
  get_next_word word_pairs key_id min_length rng = Ok (w, rng') ->
  rng' = advance rng /\
  exists n table following,
    model_get (List.length (skipn n key_id)) word_pairs = Some table /\
    table_get (skipn n key_id) table = Some following /\
    In w following.
Proof. apply backoff_loop_draw. Qed.

Lemma get_next_word_returns_recorded_successor_witness :
  exists n table following,
    model_get (List.length (skipn n ["c"; "b"])) model9 = Some table /\
    table_get (skipn n ["c"; "b"]) table = Some following /\
    In "." following.
Proof.
  apply (get_next_word_returns_recorded_successor model9 ["c"; "b"] 2
           pick_last (advance pick_last) ".").
  reflexivity.
Defined.

(** X6.  In a built model the search has a table only for the orders
    [1..N]: called with the empty context, or with a context of more
    than [N] tokens, [get_next_word] raises [KeyError]. *)
Theorem get_next_word_without_table (words : list Token) (N : nat) (m : Model)
  (key_id : Key) (min_length : nat) (rng : Rng) :
  collect_dict words N = Ok m ->
  key_id = [] \/ N < List.length key_id ->
  get_next_word m key_id min_length rng = Raise KeyError.
Proof.
  intros Hm Hk.
  destruct (collect_dict_spec words N) as (m' & E & _ & _ & Hout).
  rewrite Hm in E. injection E as <-.
  assert (Hnone : model_get (List.length key_id) m = None).
  { apply Hout. destruct Hk as [-> | Hk]; simpl; lia. }
  unfold get_next_word. destruct key_id as [|t key_id].
  - cbn [List.length backoff_loop]. unfold backoff_last, dict_item.
    fold model_get. now rewrite Hnone.
  - cbn [List.length backoff_loop]. unfold backoff_pass. now rewrite Hnone.
Qed.

Lemma get_next_word_without_table_witness :
  get_next_word model9 ["A"; "b"; "c"] 1 pick_last = Raise KeyError.
Proof.
  apply (get_next_word_without_table corpus9 2 model9).
  - reflexivity.
  - right. simpl. lia.
Defined.

Lemma built_full_context (words : list Token) (N : nat) (m : Model)
  (table : Table) (key_id : Key) (following : list Token)
  (min_length : nat) (rng : Rng) :
  collect_dict words N = Ok m ->
  model_get N m = Some table ->
  table_get key_id table = Some following ->
  min_length <= 1 ->
  List.length key_id = N /\ following <> [] /\
  backoff_pass m key_id min_length rng = Return (random_choice following rng) /\
  get_next_word m key_id min_length rng = random_choice following rng.
Proof.
  intros Hm Ht Hf Hml.
  destruct (built_table words N m N table Hm Ht) as [HN _].
  assert (Hlen : List.length key_id = N).
  { assert (Hk : In key_id (keys table)).
    { apply (dict_get_keys Key_eq_dec). now exists following. }
    apply (built_table_keys words N m N table key_id Hm Ht) in Hk.
    destruct Hk as (i & Hi & <-). apply slice_length. lia. }
  assert (Hne : following <> []).
  { rewrite (built_table_get words N m N table key_id Hm Ht) in Hf.
    apply extend_None_Some in Hf. now destruct Hf as [-> Hf]. }
  assert (Hpass : backoff_pass m key_id min_length rng =
                  Return (random_choice following rng)).
  { apply (backoff_pass_supported m key_id min_length rng table following).
    - now rewrite Hlen.
    - exact Hf.
    - destruct following; [congruence | simpl; lia]. }
  repeat split; try assumption.
  unfold get_next_word. rewrite Hlen. destruct N as [|N]; [lia|].
  cbn [backoff_loop]. now rewrite Hpass.
Qed.

(** X7.  With [min_length <= 1] a context of the order-N table of a
    built model is always answered from its own successors: the call
    returns, with [random.choice] on the list recorded for the whole
    context, and never backs off. *)
Theorem get_next_word_min_length_one (words : list Token) (N : nat) (m : Model)
  (table : Table) (key_id : Key) (following : list Token)
  (min_length : nat) (rng : Rng) :
  collect_dict words N = Ok m ->
  model_get N m = Some table ->
  table_get key_id table = Some following ->
  min_length <= 1 ->
  get_next_word m key_id min_length rng = random_choice following rng /\
  fst (get_next_word_trace m key_id min_length rng) = [Probe N] /\
  exists w, get_next_word m key_id min_length rng = Ok (w, advance rng) /\
            In w following.
Proof.
  intros Hm Ht Hf Hml.
  destruct (built_full_context words N m table key_id following min_length rng
              Hm Ht Hf Hml) as (Hlen & Hne & Hpass & Hget).
  destruct (built_table words N m N table Hm Ht) as [HN _].
  split; [exact Hget|]. split.
  - unfold get_next_word_trace. rewrite Hlen. destruct N as [|N]; [lia|].
    cbn [backoff_trace]. rewrite Hpass. cbn [fst]. now rewrite Hlen.
  - rewrite Hget. destruct following as [|x xs]; [congruence|].
    unfold random_choice, subscript.
    destruct (nth_error (x :: xs) (randbelow rng (List.length (x :: xs))))
      as [w|] eqn:En.
    + exists w. split; [reflexivity|]. eapply nth_error_In, En.
    + apply nth_error_None in En. unfold randbelow in En.
      pose proof (Nat.mod_upper_bound (rng 0 (List.length (x :: xs)))
                    (List.length (x :: xs))) as Hb.
      simpl in Hb, En. lia.
Qed.

Lemma get_next_word_min_length_one_witness :
  get_next_word model9 ["A"; "b"] 1 pick_last = random_choice ["c"; "d"] pick_last.
Proof.
  apply (get_next_word_min_length_one corpus9 2 model9 table9_2 ["A"; "b"] ["c"; "d"] 1 pick_last);
    [reflexivity | reflexivity | reflexivity | lia].
Defined.

(* ================================================================= *)
(** ** More on the rendering *)

Lemma squeeze_unspace (p : ascii) (s : string) : squeeze (unspace p s) = squeeze s.
Proof.
  induction s as [|c s IH]; [reflexivity|].
  rewrite unspace_cons.
  destruct (Ascii.eqb c space) eqn:Ec; cbn [andb].
  - destruct (starts_with p s); cbn [squeeze]; rewrite Ec; exact IH.
  - cbn [squeeze]. rewrite Ec. now rewrite IH.
Qed.

Lemma length_unspace (p : ascii) (s : string) :
  String.length (unspace p s) <= String.length s.
Proof.
  induction s as [|c s IH]; [reflexivity|].
  rewrite unspace_cons.
  destruct (Ascii.eqb c space && starts_with p s); simpl; lia.
Qed.

Lemma squeeze_attach (s : string) : squeeze (attach s) = squeeze s.
Proof. rewrite attach_unspace. now rewrite !squeeze_unspace. Qed.

Lemma length_attach (s : string) : String.length (attach s) <= String.length s.
Proof.
  rewrite attach_unspace.
  pose proof (length_unspace "." s).
  pose proof (length_unspace "," (unspace "." s)).
  pose proof (length_unspace "!" (unspace "," (unspace "." s))).
  pose proof (length_unspace "?" (unspace "!" (unspace "," (unspace "." s)))).
  pose proof (length_unspace ";" (unspace "?" (unspace "!" (unspace "," (unspace "." s))))).
  lia.
Qed.

(** X8.  The rendering deletes spaces and nothing else: for every text,
    whatever its tokens, the rendered text has the same characters other
    than spaces, in the same order, and is not longer than the text. *)
Theorem render_only_removes_spaces (s : string) :
  squeeze (render s) = squeeze s /\
  String.length (render s) <= String.length s.
Proof.
  rewrite render_rounds. split.
  - now rewrite !squeeze_attach.
  - pose proof (length_attach s).
    pose proof (length_attach (attach s)).
    pose proof (length_attach (attach (attach s))).
    pose proof (length_attach (attach (attach (attach s)))).
    lia.
Qed.

(** X9.  A text in which no space stands right before one of the marks
    [. , ! ? ;] is left as it is by the rendering (spaces elsewhere, also
    several in a row, are kept). *)
Theorem render_without_marks_after_spaces (s : string) :
  space_before "." s = false ->
  space_before "," s = false ->
  space_before "!" s = false ->
  space_before "?" s = false ->
  space_before ";" s = false ->
  render s = s.
Proof.
  intros D C E Q S.
  assert (H : attach s = s).
  { rewrite attach_unspace.
    rewrite (unspace_fixed "." s D), (unspace_fixed "," s C),
      (unspace_fixed "!" s E), (unspace_fixed "?" s Q).
    exact (unspace_fixed ";" s S). }
  rewrite render_rounds. now rewrite !H.
Qed.

Lemma render_without_marks_after_spaces_witness :
  render "Hello  world. Bye" = "Hello  world. Bye".
Proof.
  apply render_without_marks_after_spaces; reflexivity.
Defined.

Lemma unspace_head (p c : ascii) (s : string) :
  Ascii.eqb c space = false ->
  unspace p (String c s) = String c (unspace p s).
Proof. intros H. rewrite unspace_cons. now rewrite H. Qed.

Lemma render_head (c : ascii) (s : string) :
  Ascii.eqb c space = false ->
  exists s', render (String c s) = String c s'.
Proof.
  intros H.
  assert (Ha : forall t, exists t', attach (String c t) = String c t').
  { intros t. rewrite attach_unspace. rewrite !(unspace_head _ c) by exact H.
    eexists. reflexivity. }
  rewrite render_rounds.
  destruct (Ha s) as (s1 & ->). destruct (Ha s1) as (s2 & ->).
  destruct (Ha s2) as (s3 & ->). destruct (Ha s3) as (s4 & ->).
  now exists s4.
Qed.

Lemma isupper_not_space (isupper : ascii -> bool) (c : ascii) :
  isupper space = false -> isupper c = true -> Ascii.eqb c space = false.
Proof.
  intros Hsp H. apply Ascii.eqb_neq. intros ->. congruence.
Qed.

(* ================================================================= *)
(** ** More on [generate_text] *)

Lemma filter_keys_sound (isupper : ascii -> bool) (l : list Key) :
  forall candidates,
    filter_keys isupper l = Ok candidates ->
    forall key, In key candidates -> In key l /\ starts_upper isupper key = true.
Proof.
  induction l as [|k l IH]; intros candidates; cbn [filter_keys].
  - intros [= <-] key [].
  - destruct (capitalized isupper k) as [b|e|] eqn:Ec; cbn [bind]; try discriminate.
    destruct (filter_keys isupper l) as [rest|e|]; cbn [bind]; try discriminate.
    intros [= <-] key Hkey.
    assert (Hb : b = true -> starts_upper isupper k = true).
    { intros ->. unfold capitalized, subscript in Ec.
      destruct k as [|tok k]; cbn [nth_error bind] in Ec; [discriminate|].
      destruct tok as [|c t]; [discriminate|].
      cbn [starts_upper]. congruence. }
    destruct b.
    + destruct Hkey as [<-|Hkey].
      * split; [now left | now apply Hb].
      * destruct (IH rest eq_refl key Hkey). split; [now right | assumption].
    + destruct (IH rest eq_refl key Hkey). split; [now right | assumption].
Qed.

Lemma generate_loop_extends (word_pairs : Model) (limit min_length : nat)
  (fuel : nat) :
  forall st st',
    generate_loop fuel word_pairs limit min_length st = Ok st' ->
    exists rest, markov_text st' = (markov_text st ++ rest)%string.
Proof.
  induction fuel as [|fuel IH]; intros st st'; cbn [generate_loop];
    destruct (word_count (markov_text st) <? limit).
  - discriminate.
  - intros [= <-]. exists EmptyString. clear. induction (markov_text st); simpl; congruence.
  - destruct (get_next_word word_pairs (first_key st) min_length (source st))
      as [[w rng']|e|]; cbn [bind]; try discriminate.
    intros H. apply IH in H. destruct H as (rest & ->). cbn [markov_text].
    exists (" " ++ w ++ rest)%string. now rewrite !string_app_assoc.
  - intros [= <-]. exists EmptyString. clear. induction (markov_text st); simpl; congruence.
Qed.

Lemma join_head (c : ascii) (t : string) (l : list string) :
  exists s, join " " (String c t :: l) = String c s.
Proof. destruct l; eexists; reflexivity. Qed.

(** X10.  Whenever [generate_text] returns a text, for any model and any
    arguments, the text begins with an uppercase letter: the first
    character of the seed, which neither the loop nor the rendering
    touches.  (A space is no uppercase letter: [' '.isupper()] is
    [False].) *)
Theorem generated_text_starts_uppercase (isupper : ascii -> bool)
  (word_pairs words : Model) (limit min_length : nat) (rng : Rng)
  (text : string) :
  isupper space = false ->
  generate_text isupper word_pairs words limit min_length rng = Ok text ->
  exists c s, text = String c s /\ isupper c = true.
Proof.
  intros Hspace.
  unfold generate_text, generate_state, capitalized_keys.
  destruct (top_table words) as [table|e|]; cbn [bind]; try discriminate.
  destruct (filter_keys isupper (keys table)) as [candidates|e|] eqn:Ef; cbn [bind];
    try discriminate.
  destruct (random_choice candidates rng) as [[seed rng1]|e|] eqn:Er; cbn [bind];
    try discriminate.
  destruct (generate_loop limit word_pairs limit min_length
              (GenState seed (join " " seed) rng1)) as [st|e|] eqn:El;
    cbn [bind]; try discriminate.
  intros [= <-].
  apply random_choice_In in Er. destruct Er as [Hseed _].
  destruct (filter_keys_sound isupper _ _ Ef seed Hseed) as [_ Hup].
  destruct seed as [|[|c t] seed]; try discriminate. cbn [starts_upper] in Hup.
  apply generate_loop_extends in El. destruct El as (rest & ->).
  cbn [markov_text]. unfold Key, Token in *.
  destruct (join_head c t seed) as (s & ->).
  destruct (render_head c (s ++ rest) (isupper_not_space isupper c Hspace Hup))
    as (s' & Hs').
  exists c, s'. split; [exact Hs' | exact Hup].
Qed.

Lemma generated_text_starts_uppercase_witness :
  exists c s, "A b d." = String c s /\ ascii_isupper c = true.
Proof.
  apply (generated_text_starts_uppercase ascii_isupper model9 model9 4 1 pick_last "A b d.");
    reflexivity.
Defined.

Lemma slide_context (toks : list Token) (key : Key) (w : Token) :
  1 <= List.length key <= List.length toks ->
  key = skipn (List.length toks - List.length key) toks ->
  skipn 1 key ++ [w] =
    skipn (List.length (toks ++ [w]) - List.length (skipn 1 key ++ [w])) (toks ++ [w]) /\
  List.length (skipn 1 key ++ [w]) = List.length key.
Proof.
  intros Hlen Hkey.
  assert (Hl : List.length (skipn 1 key ++ [w]) = List.length key).
  { rewrite length_app, length_skipn. simpl. lia. }
  split; [|exact Hl]. rewrite Hl, length_app. cbn [List.length].
  rewrite skipn_app.
  replace (List.length toks + 1 - List.length key - List.length toks) with 0 by lia.
  cbn [skipn]. f_equal.
  replace (List.length toks + 1 - List.length key)
    with (1 + (List.length toks - List.length key)) by lia.
  rewrite <- skipn_skipn, <- Hkey. reflexivity.
Qed.

(** The loop keeps the context equal to the last tokens of the text,
    draws once per token, and adds recorded successors only. *)
Lemma generate_loop_trace (word_pairs : Model) (limit min_length : nat) :
  clean_model word_pairs = true ->
  forall (fuel : nat) (key : Key) (toks : list Token) (rng : Rng) (st : gen_state),
    forallb space_free toks = true ->
    1 <= List.length key <= List.length toks ->
    key = skipn (List.length toks - List.length key) toks ->
    generate_loop fuel word_pairs limit min_length (GenState key (join " " toks) rng)
      = Ok st ->
    exists more,
      output_tokens st = toks ++ more /\
      first_key st =
        skipn (List.length (toks ++ more) - List.length key) (toks ++ more) /\
      List.length (first_key st) = List.length key /\
      source st = Nat.iter (List.length more) advance rng /\
      (forall w, In w more -> recorded word_pairs w).
Proof.
  intros Hc. induction fuel as [|fuel IH]; intros key toks rng st Hsf Hlen Hkey;
    assert (Hne : toks <> []) by (intros ->; simpl in Hlen; lia);
    cbn [generate_loop markov_text first_key source]; unfold word_count;
    rewrite (split_join toks Hne Hsf); unfold Token in *;
    destruct (List.length toks <? limit) eqn:E; cbv iota; intros Hloop.
  - discriminate Hloop.
  - injection Hloop as <-. exists []. rewrite app_nil_r.
    unfold output_tokens. cbn [markov_text first_key source List.length Nat.iter].
    rewrite (split_join toks Hne Hsf).
    split; [reflexivity|]. split; [exact Hkey|]. split; [reflexivity|].
    split; [reflexivity|]. intros w [].
  - destruct (get_next_word word_pairs key min_length rng) as [[w rng']|e|] eqn:G;
      cbn [bind] in Hloop; try discriminate Hloop.
    rewrite <- (join_snoc toks w Hne) in Hloop.
    pose proof (get_next_word_space_free _ _ _ _ _ _ Hc G) as Hw.
    destruct (slide_context toks key w Hlen Hkey) as [Hslide Hl].
    apply backoff_loop_draw in G. destruct G as (-> & n & table & following & Ht & Hf & Hin).
    apply IH in Hloop.
    + destruct Hloop as (more & H1 & H2 & H3 & H4 & H5).
      exists (w :: more). rewrite <- app_assoc in H1, H2. cbn [app] in H1, H2.
      unfold Key, Token in *. rewrite Hl in H2, H3.
      split; [exact H1|]. split; [exact H2|]. split; [exact H3|]. split.
      * rewrite H4. cbn [List.length]. now rewrite Nat.iter_succ_r.
      * intros w' [<-|Hw']; [|now apply H5].
        exists (List.length (skipn n key)), table, (skipn n key), following. tauto.
    + unfold Token in *. rewrite forallb_app, Hsf. cbn. now rewrite Hw.
    + unfold Key, Token in *. rewrite Hl, length_app. simpl. lia.
    + exact Hslide.
  - injection Hloop as <-. exists []. rewrite app_nil_r.
    unfold output_tokens. cbn [markov_text first_key source List.length Nat.iter].
    rewrite (split_join toks Hne Hsf).
    split; [reflexivity|]. split; [exact Hkey|]. split; [reflexivity|].
    split; [reflexivity|]. intros w [].
Qed.

(** X11.  The context of the generation is a sliding window over the
    output.  For a model whose recorded successors have no space in them
    and whose order-N table has keys of [N >= 1] tokens without a space:
    when the loop of [generate_text] ends, [first_key] has [N] tokens,
    they are the last [N] tokens of the output, and the random source
    has been used once for the seed and once for each token after it. *)
Theorem generate_context_is_output_tail (isupper : ascii -> bool) (word_pairs words : Model) (table : Table)
  (N limit min_length : nat) (rng : Rng) (st : gen_state) :
  1 <= N ->
  clean_model word_pairs = true ->
  top_table words = Ok table ->
  (forall key, In key (keys table) ->
     List.length key = N /\ forallb space_free key = true) ->
  generate_state isupper word_pairs words limit min_length rng = Ok st ->
  List.length (first_key st) = N /\
  first_key st = skipn (List.length (output_tokens st) - N) (output_tokens st) /\
  source st = Nat.iter (S (List.length (output_tokens st) - N)) advance rng /\
  forall w, In w (skipn N (output_tokens st)) -> recorded word_pairs w.
Proof.
  intros HN Hclean Ht Hkeys.
  assert (Hne : forall key, In key (keys table) -> key <> []).
  { intros key Hk ->. destruct (Hkeys [] Hk) as [Hl _]. simpl in Hl. lia. }
  pose proof (capitalized_keys_spec isupper words table Ht Hne) as Hc.
  unfold generate_state. rewrite Hc. cbn [bind].
  destruct (random_choice (filter (starts_upper isupper) (keys table)) rng)
    as [[seed rng1]|e|] eqn:Er; cbn [bind]; try discriminate.
  apply random_choice_In in Er. destruct Er as [Hseed ->].
  apply filter_In in Hseed. destruct Hseed as [Hin _].
  destruct (Hkeys seed Hin) as [Hlen Hsf]. intros Hloop.
  destruct (generate_loop_trace word_pairs limit min_length Hclean
              limit seed seed (advance rng) st Hsf) as (more & H1 & H2 & H3 & H4 & H5).
  - lia.
  - now rewrite Nat.sub_diag.
  - exact Hloop.
  - rewrite H1, <- Hlen. split; [exact H3|]. split; [exact H2|]. split.
    + rewrite H4, length_app.
      replace (List.length seed + List.length more - List.length seed)
        with (List.length more) by lia.
      now rewrite <- Nat.iter_succ_r.
    + intros w Hw. rewrite skipn_app, skipn_all, Nat.sub_diag in Hw.
      apply H5. exact Hw.
Qed.

Lemma generate_context_is_output_tail_witness :
  exists st,
    generate_state ascii_isupper model9 model9 4 1 pick_last = Ok st /\
    first_key st = skipn (List.length (output_tokens st) - 2) (output_tokens st).
Proof.
  eexists. split; [reflexivity|].
  refine (proj1 (proj2 (generate_context_is_output_tail ascii_isupper model9 model9 table9_2
                          2 4 1 pick_last _ _ _ _ _ eq_refl))).
  - lia.
  - reflexivity.
  - reflexivity.
  - intros key Hk. simpl in Hk.
    repeat (destruct Hk as [<-|Hk]; [split; reflexivity|]). destruct Hk.
Defined.

Lemma built_recorded_in_corpus (words : list Token) (N : nat) (m : Model)
  (w : Token) :
  collect_dict words N = Ok m -> recorded m w -> In w words.
Proof.
  intros Hm (k & table & c & following & Ht & Hf & Hw).
  rewrite (built_table_get words N m k table c Hm Ht) in Hf.
  apply extend_None_Some in Hf. destruct Hf as [-> _].
  now apply (followers_incl words N k c).
Qed.

(** X12.  The generation invents no token: for a model built by
    [collect_dict] from tokens without a space, with [N >= 1], every
    token of a text that [generate_text] returns (before the rendering)
    is a token of the corpus. *)
Theorem generated_tokens_are_corpus_tokens (isupper : ascii -> bool) (words : list Token)
  (N limit min_length : nat) (m : Model) (rng : Rng) (st : gen_state) :
  1 <= N ->
  forallb space_free words = true ->
  collect_dict words N = Ok m ->
  generate_state isupper m m limit min_length rng = Ok st ->
  incl (output_tokens st) words.
Proof.
  intros HN Hw Hm Hst.
  destruct (built_top_table words N m HN Hm) as (table & Htop & Ht).
  assert (Hkeys : forall key, In key (keys table) ->
                    List.length key = N /\ forallb space_free key = true).
  { intros key Hk. exact (built_model_keys words N N m table key Hw Hm Ht Hk). }
  assert (Hclean := built_model_clean words N m Hw Hm).
  assert (Hne : forall key, In key (keys table) -> key <> []).
  { intros key Hk ->. destruct (Hkeys [] Hk) as [Hl _]. simpl in Hl. lia. }
  pose proof (capitalized_keys_spec isupper m table Htop Hne) as Hc.
  unfold generate_state in Hst. rewrite Hc in Hst. cbn [bind] in Hst.
  destruct (random_choice (filter (starts_upper isupper) (keys table)) rng)
    as [[seed rng1]|e|] eqn:Er; cbn [bind] in Hst; try discriminate.
  apply random_choice_In in Er. destruct Er as [Hseed ->].
  apply filter_In in Hseed. destruct Hseed as [Hin _].
  destruct (Hkeys seed Hin) as [Hlen Hsf].
  destruct (generate_loop_trace m limit min_length Hclean
              limit seed seed (advance rng) st Hsf) as (more & H1 & _ & _ & _ & H5).
  - lia.
  - now rewrite Nat.sub_diag.
  - exact Hst.
  - rewrite H1. intros w Hin'. apply in_app_or in Hin'. destruct Hin' as [Hs|Hmore].
    + apply (built_table_keys words N m N table seed Hm Ht) in Hin.
      destruct Hin as (i & _ & <-). now apply (slice_incl words i N).
    + apply (built_recorded_in_corpus words N m w Hm). now apply H5.
Qed.

Lemma generated_tokens_are_corpus_tokens_witness :
  exists st,
    generate_state ascii_isupper model9 model9 4 1 pick_last = Ok st /\
    incl (output_tokens st) corpus9.
Proof.
  eexists. split; [reflexivity|].
  apply (generated_tokens_are_corpus_tokens ascii_isupper corpus9 2 4 1 model9 pick_last);
    [lia | reflexivity | reflexivity | reflexivity].
Defined.

(* ================================================================= *)
(** ** The builders of the earlier cells *)

Lemma for_each_ext {A S : Type} (f g : S -> A -> result S) (l : list A) :
  (forall x s, In x l -> f s x = g s x) ->
  forall s, for_each f l s = for_each g l s.
Proof.
  induction l as [|x l IH]; intros H s; [reflexivity|].
  cbn [for_each]. rewrite (H x s (or_introl eq_refl)).
  destruct (g s x); cbn [bind]; try reflexivity.
  apply IH. intros y s' Hy. apply H. now right.
Qed.

Lemma slice_one (words : list Token) (i : nat) :
  i < List.length words -> slice words i 1 = [nth i words EmptyString].
Proof.
  intros H. unfold slice.
  destruct (skipn i words) as [|x rest] eqn:E.
  - apply (f_equal (@List.length string)) in E. rewrite length_skipn in E.
    simpl in E. lia.
  - cbn [firstn]. f_equal.
    rewrite <- (Nat.add_0_r i), <- nth_skipn, E. reflexivity.
Qed.

Lemma slice_two (words : list Token) (i : nat) :
  i + 1 < List.length words ->
  slice words i 2 = [nth i words EmptyString; nth (i + 1) words EmptyString].
Proof.
  intros H. unfold slice.
  destruct (skipn i words) as [|x [|y rest]] eqn:E;
    try (apply (f_equal (@List.length string)) in E; rewrite length_skipn in E;
         simpl in E; lia).
  cbn [firstn]. rewrite <- (Nat.add_0_r i) at 1.
  rewrite <- !nth_skipn, E. reflexivity.
Qed.

Lemma second_order_step (words : list Token) (text_dict : Table) (i : nat) :
  i + 2 < List.length words ->
  SecondOrder.collect_step words text_dict i = collect_step words 2 2 text_dict i.
Proof.
  intros H. unfold SecondOrder.collect_step, collect_step.
  rewrite (subscript_in_range words i EmptyString) by lia.
  rewrite (subscript_in_range words (i + 1) EmptyString) by lia.
  cbn [bind]. rewrite slice_two by lia. reflexivity.
Qed.

Lemma second_order_table (words : list Token) :
  SecondOrder.collect_words words = collect_table words 2 2.
Proof.
  unfold SecondOrder.collect_words, collect_table. apply for_each_ext.
  intros i s Hi. apply in_seq in Hi. apply second_order_step. lia.
Qed.

(** X13.  The second-order dictionary of the cells "Second-order Markov
    chain" and "Tokenizing instead of splitting" is the order-2 table of
    the backoff model with [N = 2]: on the same list of words both
    builders return, and the dictionary is what the model holds at
    order 2, with the same keys in the same order and the same lists. *)
Theorem second_order_is_backoff_order_two (words : list Token) :
  exists table m,
    Tokenized.collect_dict words = Ok table /\
    collect_dict words 2 = Ok m /\
    model_get 2 m = Some table /\
    forall corpus, split space corpus = words ->
                   SecondOrder.collect_dict corpus = Ok table.
Proof.
  destruct (collect_dict_spec words 2) as (m & Hm & _ & Hin & _).
  destruct (Hin 2) as (table & Ht & Hg); [lia|].
  exists table, m.
  assert (H : Tokenized.collect_dict words = Ok table).
  { unfold Tokenized.collect_dict. now rewrite second_order_table. }
  split; [exact H|]. split; [exact Hm|]. split; [exact Hg|].
  intros corpus <-. exact H.
Qed.

Lemma second_order_is_backoff_order_two_witness :
  SecondOrder.collect_dict "A b c . A b d ." = Ok table9_2.
Proof.
  destruct (second_order_is_backoff_order_two corpus9) as (table & m & _ & Hm & Hg & H).
  rewrite collect_dict_corpus9 in Hm. injection Hm as <-.
  injection Hg as <-.
  apply H. reflexivity.
Defined.

(** X14.  The six-token dictionary of the cell "Higher-order Markov
    chain" is the order-6 table of the backoff model with [N = 6]: the
    builder returns for every list of words, its keys are exactly the
    windows [words[i:i+6]] with [i < len(words) - 6], and its lists hold
    [len(words) - 6] successors altogether. *)
Theorem six_gram_is_backoff_order_six (words : list Token) :
  exists table m,
    SixGram.collect_dict words = Ok table /\
    collect_dict words 6 = Ok m /\
    model_get 6 m = Some table /\
    (forall c, In c (keys table) <->
               exists i, i < List.length words - 6 /\ slice words i 6 = c) /\
    total_successors table = List.length words - 6.
Proof.
  destruct (collect_dict_spec words 6) as (m & Hm & _ & Hin & _).
  destruct (Hin 6) as (table & Ht & Hg); [lia|].
  exists table, m. split; [exact Ht|]. split; [exact Hm|]. split; [exact Hg|].
  split.
  - intros c. exact (built_table_keys words 6 m 6 table c Hm Hg).
  - destruct (collect_steps_total words 6 6 (starts words 6) []) as (t & E & T).
    { intros i Hi. apply In_starts in Hi. lia. }
    assert (Ht' : for_each (collect_step words 6 6) (starts words 6) [] = Ok table)
      by exact Ht.
    rewrite E in Ht'. injection Ht' as <-.
    rewrite T. unfold starts. rewrite length_seq. reflexivity.
Qed.

Lemma wrap_get (w : string) (d : FirstOrder.Chain) :
  table_get [w] (wrap_keys d) = dict_get string_dec w d.
Proof.
  unfold table_get. induction d as [|[k l] d IH]; [reflexivity|].
  cbn [wrap_keys map dict_get fst snd].
  destruct (Key_eq_dec [w] [k]) as [E|E], (string_dec w k) as [E'|E'];
    try reflexivity; try congruence. exact IH.
Qed.

Lemma wrap_mem (w : string) (d : FirstOrder.Chain) :
  table_mem [w] (wrap_keys d) = dict_mem string_dec w d.
Proof.
  unfold table_mem, dict_mem. fold (table_get [w] (wrap_keys d)).
  now rewrite wrap_get.
Qed.

Lemma wrap_modify (f : list string -> list string) (w : string)
  (d : FirstOrder.Chain) :
  dict_modify Key_eq_dec f [w] (wrap_keys d) = wrap_keys (dict_modify string_dec f w d).
Proof.
  induction d as [|[k l] d IH]; [reflexivity|].
  cbn [wrap_keys map dict_modify fst snd].
  destruct (Key_eq_dec [w] [k]) as [E|E], (string_dec w k) as [E'|E'];
    try reflexivity; try congruence.
  cbn [map fst snd]. f_equal. exact IH.
Qed.

Lemma wrap_set (w : string) (l : list string) (d : FirstOrder.Chain) :
  dict_set Key_eq_dec [w] l (wrap_keys d) = wrap_keys (dict_set string_dec w l d).
Proof.
  unfold dict_set. fold (table_mem [w] (wrap_keys d)). rewrite wrap_mem.
  destruct (dict_mem string_dec w d).
  - apply wrap_modify.
  - unfold wrap_keys. now rewrite map_app.
Qed.

Lemma first_order_step (words : list string) (d : FirstOrder.Chain) (i : nat) :
  i + 1 < List.length words ->
  exists d',
    FirstOrder.collect_step words d i = Ok d' /\
    collect_step words 1 1 (wrap_keys d) i = Ok (wrap_keys d').
Proof.
  intros Hi. assert (Hi' : i < List.length words) by lia.
  unfold FirstOrder.collect_step, collect_step.
  rewrite (slice_one words i Hi'), wrap_mem.
  rewrite (subscript_in_range words i EmptyString Hi').
  pose proof (subscript_in_range words (i + 1) EmptyString Hi) as Hn.
  cbn [bind]. unfold Token in *.
  destruct (dict_mem string_dec (nth i words EmptyString) d);
    rewrite Hn; cbn [bind]; eexists; split; try reflexivity.
  - now rewrite wrap_modify.
  - now rewrite wrap_set.
Qed.

Lemma first_order_steps (words : list string) (ps : list nat) :
  forall d : FirstOrder.Chain,
    (forall i, In i ps -> i + 1 < List.length words) ->
    exists d',
      for_each (FirstOrder.collect_step words) ps d = Ok d' /\
      for_each (collect_step words 1 1) ps (wrap_keys d) = Ok (wrap_keys d').
Proof.
  induction ps as [|i ps IH]; intros d Hps; cbn [for_each].
  - now exists d.
  - destruct (first_order_step words d i) as (d1 & E1 & E2).
    { apply Hps. now left. }
    rewrite E1, E2. cbn [bind]. apply IH. intros k Hk. apply Hps. now right.
Qed.

(** X15.  The first-order dictionary of the cell "First-order Markov
    chain" is the order-1 table of the backoff model with [N = 1] built
    from the words [corpus.split(' ')]: both builders return, and the
    table has the same entries in the same order, each word being the
    key of one token. *)
Theorem first_order_is_backoff_order_one (corpus : string) :
  exists d m,
    FirstOrder.collect_dict corpus = Ok d /\
    collect_dict (split space corpus) 1 = Ok m /\
    model_get 1 m = Some (wrap_keys d).
Proof.
  destruct (collect_dict_spec (split space corpus) 1) as (m & Hm & _ & Hin & _).
  destruct (Hin 1) as (table & Ht & Hg); [lia|].
  destruct (first_order_steps (split space corpus)
              (seq 0 (List.length (split space corpus) - 1)) []) as (d & E1 & E2).
  { intros i Hi. apply in_seq in Hi. lia. }
  exists d, m. split; [exact E1|]. split; [exact Hm|].
  rewrite Hg. f_equal.
  assert (H : collect_table (split space corpus) 1 1 = Ok (wrap_keys d)) by exact E2.
  pose proof (eq_trans (eq_sym Ht) H) as Heq. now injection Heq.
Qed.

(* ================================================================= *)
(** ** The generators of the earlier cells *)

Lemma second_order_loop_agrees (words : list Token) (N : nat) (m : Model)
  (table : Table) (limit min_length : nat) :
  collect_dict words N = Ok m ->
  model_get N m = Some table ->
  min_length <= 1 ->
  forall (fuel : nat) (st st' : gen_state),
    SecondOrder.generate_loop fuel table limit st = Ok st' ->
    generate_loop fuel m limit min_length st = Ok st'.
Proof.
  intros Hm Ht Hml. induction fuel as [|fuel IH]; intros st st';
    cbn [SecondOrder.generate_loop generate_loop];
    destruct (word_count (markov_text st) <? limit); try (intros H; exact H).
  unfold dict_item.
  destruct (dict_get Key_eq_dec (first_key st) table) as [following|] eqn:Ef;
    cbn [bind]; [|discriminate].
  destruct (built_full_context words N m table (first_key st) following
              min_length (source st) Hm Ht Ef Hml) as (_ & _ & _ & ->).
  destruct (random_choice following (source st)) as [[w rng']|e|]; cbn [bind];
    try discriminate.
  apply IH.
Qed.

(** X16.  The backoff generator extends the fixed-order one.  For a
    model built by [collect_dict] with [N >= 1] and a [min_length] of at
    most 1: whenever the generator of the cell "Tokenizing instead of
    splitting", run on the order-N table of the model, returns a text,
    [generate_text] on the model returns the same text from the same
    random source. *)
Theorem backoff_agrees_with_fixed_order (isupper : ascii -> bool) (words : list Token) (N : nat)
  (m : Model) (table : Table) (limit min_length : nat) (rng : Rng)
  (text : string) :
  1 <= N ->
  collect_dict words N = Ok m ->
  model_get N m = Some table ->
  min_length <= 1 ->
  Tokenized.generate_text isupper table limit rng = Ok text ->
  generate_text isupper m m limit min_length rng = Ok text.
Proof.
  intros HN Hm Ht Hml.
  destruct (built_top_table words N m HN Hm) as (table' & Htop & Ht').
  rewrite Ht in Ht'. injection Ht' as <-.
  unfold Tokenized.generate_text, SecondOrder.generate_state.
  unfold generate_text, generate_state, capitalized_keys. rewrite Htop.
  cbn [bind].
  destruct (filter_keys isupper (keys table)) as [candidates|e|]; cbn [bind];
    try discriminate.
  destruct (random_choice candidates rng) as [[seed rng1]|e|]; cbn [bind];
    try discriminate.
  destruct (SecondOrder.generate_loop limit table limit
              (GenState seed (join " " seed) rng1)) as [st|e|] eqn:El;
    cbn [bind]; try discriminate.
  intros [= <-].
  now rewrite (second_order_loop_agrees words N m table limit min_length
                 Hm Ht Hml limit _ st El).
Qed.

Lemma backoff_agrees_with_fixed_order_witness :
  generate_text ascii_isupper model9 model9 4 1 pick_last = Ok "A b d.".
Proof.
  apply (backoff_agrees_with_fixed_order ascii_isupper corpus9 2 model9 table9_2 4 1 pick_last);
    [lia | reflexivity | reflexivity | lia | reflexivity].
Defined.

Lemma first_order_loop_extends (words : FirstOrder.Chain) (limit : nat)
  (fuel : nat) :
  forall st st',
    FirstOrder.generate_loop fuel words limit st = Ok st' ->
    exists rest,
      FirstOrder.markov_text st' = (FirstOrder.markov_text st ++ rest)%string.
Proof.
  induction fuel as [|fuel IH]; intros st st'; cbn [FirstOrder.generate_loop];
    destruct (word_count (FirstOrder.markov_text st) <? limit).
  - discriminate.
  - intros [= <-]. exists EmptyString. clear.
    induction (FirstOrder.markov_text st); simpl; congruence.
  - destruct (dict_item string_dec (FirstOrder.first_word st) words)
      as [following|e|]; cbn [bind]; try discriminate.
    destruct (random_choice following (FirstOrder.source st)) as [[w rng']|e|];
      cbn [bind]; try discriminate.
    intros H. apply IH in H. destruct H as (rest & ->).
    cbn [FirstOrder.markov_text].
    exists (" " ++ w ++ rest)%string. now rewrite !string_app_assoc.
  - intros [= <-]. exists EmptyString. clear.
    induction (FirstOrder.markov_text st); simpl; congruence.
Qed.

(** X17.  Whenever the generator seeded at a capitalized word returns a
    text, for any dictionary and any limit, the text begins with an
    uppercase letter; and with no capitalized key in the dictionary it
    raises [IndexError]. *)
Theorem capitalized_text_starts_uppercase (isupper : ascii -> bool) (words : FirstOrder.Chain)
  (limit : nat) (rng : Rng) :
  (forall text,
     Capitalized.generate_text isupper words limit rng = Ok text ->
     exists c s, text = String c s /\ isupper c = true) /\
  (filter (Capitalized.capitalized isupper) (keys words) = [] ->
   Capitalized.generate_text isupper words limit rng = Raise IndexError).
Proof.
  unfold Capitalized.generate_text. split.
  - intros text.
    destruct (random_choice (filter (Capitalized.capitalized isupper) (keys words)) rng)
      as [[first rng1]|e|] eqn:Er; cbn [bind]; try discriminate.
    destruct (FirstOrder.generate_loop limit words limit
                (FirstOrder.GenState first first rng1)) as [st|e|] eqn:El;
      cbn [bind]; try discriminate.
    intros [= <-]. apply random_choice_In in Er. destruct Er as [Hin _].
    apply filter_In in Hin. destruct Hin as [_ Hcap].
    apply first_order_loop_extends in El. destruct El as (rest & ->).
    cbn [FirstOrder.markov_text].
    destruct first as [|c t]; [discriminate|].
    exists c, (t ++ rest)%string. split; [reflexivity | exact Hcap].
  - intros ->. reflexivity.
Qed.

Lemma capitalized_text_starts_uppercase_witness :
  exists c s, "The cat" = String c s /\ ascii_isupper c = true.
Proof.
  apply (proj1 (capitalized_text_starts_uppercase ascii_isupper
                  [("the", ["cat"]); ("The", ["cat"])] 2 pick_last)).
  reflexivity.
Defined.

Lemma split_pieces_space_free (s : string) :
  forallb space_free (split space s) = true.
Proof.
  induction s as [|c s IH]; [reflexivity|]. cbn [split].
  destruct (Ascii.eqb c space) eqn:Ec; [exact IH|].
  destruct (split space s) as [|w ws]; cbn [forallb space_free] in *.
  - now rewrite Ec.
  - now rewrite Ec.
Qed.

Lemma first_order_table (corpus : string) :
  exists d,
    FirstOrder.collect_dict corpus = Ok d /\
    collect_table (split space corpus) 1 1 = Ok (wrap_keys d).
Proof.
  destruct (first_order_steps (split space corpus)
              (seq 0 (List.length (split space corpus) - 1)) []) as (d & E1 & E2).
  { intros i Hi. apply in_seq in Hi. lia. }
  exists d. split; [exact E1 | exact E2].
Qed.

(** The words of a first-order dictionary have no space in them. *)
Lemma first_order_clean (corpus : string) (d : FirstOrder.Chain) :
  FirstOrder.collect_dict corpus = Ok d ->
  forall k l, In (k, l) d -> space_free k = true /\ forallb space_free l = true.
Proof.
  intros Hd k l Hin.
  destruct (first_order_table corpus) as (d' & E1 & E2).
  rewrite Hd in E1. injection E1 as <-.
  set (words := split space corpus) in *.
  assert (Hw : forallb space_free words = true) by apply split_pieces_space_free.
  destruct (collect_dict_spec words 1) as (m & Hm & _ & Hget & _).
  destruct (Hget 1) as (table & Ht & Hg); [lia|].
  assert (table = wrap_keys d) by congruence. subst table.
  assert (Hentry : In ([k], l) (wrap_keys d)).
  { unfold wrap_keys. apply in_map_iff. exists (k, l). now split. }
  split.
  - assert (Hk : In [k] (keys (wrap_keys d))).
    { change [k] with (fst ([k], l)). now apply in_map. }
    destruct (built_model_keys words 1 1 m (wrap_keys d) [k] Hw Hm Hg Hk) as [_ H].
    cbn [forallb] in H. now rewrite andb_true_r in H.
  - pose proof (built_model_clean words 1 m Hw Hm) as Hc.
    unfold clean_model in Hc. rewrite forallb_forall in Hc.
    apply dict_get_In in Hg. specialize (Hc _ Hg). cbn [snd] in Hc.
    unfold clean_table in Hc. rewrite forallb_forall in Hc.
    exact (Hc _ Hentry).
Qed.

Lemma first_order_loop_returns (words : FirstOrder.Chain) (limit : nat)
  (fuel : nat) :
  forall st,
    limit <= fuel + word_count (FirstOrder.markov_text st) ->
    FirstOrder.generate_loop fuel words limit st <> OutOfFuel.
Proof.
  induction fuel as [|fuel IH]; intros st Hfuel; cbn [FirstOrder.generate_loop].
  - destruct (word_count (FirstOrder.markov_text st) <? limit) eqn:E; [|discriminate].
    apply Nat.ltb_lt in E. lia.
  - destruct (word_count (FirstOrder.markov_text st) <? limit) eqn:E; [|discriminate].
    unfold dict_item.
    destruct (dict_get string_dec (FirstOrder.first_word st) words) as [following|];
      cbn [bind]; [|discriminate].
    destruct (random_choice following (FirstOrder.source st)) as [[w rng']|e|] eqn:G;
      cbn [bind].
    + apply IH. cbn [FirstOrder.markov_text].
      pose proof (word_count_grows (FirstOrder.markov_text st) w). lia.
    + discriminate.
    + now apply random_choice_returns in G.
Qed.

Lemma first_order_loop_count (words : FirstOrder.Chain) (limit : nat) :
  (forall k l, In (k, l) words -> forallb space_free l = true) ->
  forall (fuel : nat) (first : string) (toks : list string) (rng : Rng)
         (st : FirstOrder.gen_state),
    toks <> [] ->
    forallb space_free toks = true ->
    FirstOrder.generate_loop fuel words limit
      (FirstOrder.GenState first (join " " toks) rng) = Ok st ->
    word_count (FirstOrder.markov_text st) = Nat.max limit (List.length toks).
Proof.
  intros Hc. induction fuel as [|fuel IH]; intros first toks rng st Hne Hsf;
    cbn [FirstOrder.generate_loop FirstOrder.markov_text FirstOrder.first_word
           FirstOrder.source];
    unfold word_count at 1; rewrite (split_join toks Hne Hsf);
    destruct (List.length toks <? limit) eqn:E; cbv iota; intros Hloop.
  - discriminate Hloop.
  - apply Nat.ltb_ge in E. injection Hloop as <-. cbn [FirstOrder.markov_text].
    unfold word_count. rewrite (split_join toks Hne Hsf). lia.
  - apply Nat.ltb_lt in E. unfold dict_item in Hloop.
    destruct (dict_get string_dec first words) as [following|] eqn:Ef;
      cbn [bind] in Hloop; [|discriminate Hloop].
    destruct (random_choice following rng) as [[w rng']|e|] eqn:G;
      cbn [bind] in Hloop; try discriminate Hloop.
    apply random_choice_In in G. destruct G as [Hw _].
    apply dict_get_In in Ef. pose proof (Hc _ _ Ef) as Hl.
    rewrite forallb_forall in Hl. specialize (Hl w Hw).
    rewrite <- (join_snoc toks w Hne) in Hloop.
    apply IH in Hloop.
    + rewrite Hloop, length_app. cbn [List.length]. unfold Token in *. lia.
    + now destruct toks.
    + unfold Token in *. rewrite forallb_app, Hsf. cbn. now rewrite Hl.
  - apply Nat.ltb_ge in E. injection Hloop as <-. cbn [FirstOrder.markov_text].
    unfold word_count. rewrite (split_join toks Hne Hsf). lia.
Qed.

Lemma first_order_seeded_count (corpus : string) (d : FirstOrder.Chain)
  (limit : nat) (first : string) (rng : Rng) (st : FirstOrder.gen_state) :
  FirstOrder.collect_dict corpus = Ok d ->
  In first (keys d) ->
  FirstOrder.generate_loop limit d limit (FirstOrder.GenState first first rng) = Ok st ->
  word_count (FirstOrder.markov_text st) = Nat.max limit 1.
Proof.
  intros Hd Hin Hloop.
  assert (Hfirst : space_free first = true).
  { apply in_map_iff in Hin. destruct Hin as ([k l] & <- & Hkl).
    now destruct (first_order_clean corpus d Hd k l Hkl). }
  apply (first_order_loop_count d limit) with (toks := [first]) in Hloop.
  - exact Hloop.
  - intros k l Hkl. now destruct (first_order_clean corpus d Hd k l Hkl).
  - discriminate.
  - cbn. now rewrite Hfirst.
Qed.

(** X18.  The first-order generators count words exactly.  For the
    dictionary that the first-order [collect_dict] builds from any
    corpus, and any limit: neither [generate_text] of "First-order
    Markov chain" nor the one seeded at a capitalized word runs forever,
    and a text they return has exactly [max limit 1] words, as
    [split(' ')] counts them. *)
Theorem first_order_text_length (isupper : ascii -> bool) (corpus : string) (limit : nat) (rng : Rng) :
  exists d,
    FirstOrder.collect_dict corpus = Ok d /\
    FirstOrder.generate_text d limit rng <> OutOfFuel /\
    Capitalized.generate_text isupper d limit rng <> OutOfFuel /\
    (forall text, FirstOrder.generate_text d limit rng = Ok text ->
                  word_count text = Nat.max limit 1) /\
    (forall text, Capitalized.generate_text isupper d limit rng = Ok text ->
                  word_count text = Nat.max limit 1).
Proof.
  destruct (first_order_table corpus) as (d & Hd & _).
  exists d. split; [exact Hd|].
  unfold FirstOrder.generate_text, Capitalized.generate_text.
  assert (Hfuel : forall first rng1,
             FirstOrder.generate_loop limit d limit
               (FirstOrder.GenState first first rng1) <> OutOfFuel).
  { intros first rng1. apply first_order_loop_returns. lia. }
  repeat split.
  - destruct (random_choice (keys d) rng) as [[first rng1]|e|] eqn:Er; cbn [bind];
      [| discriminate | now apply random_choice_returns in Er].
    specialize (Hfuel first rng1).
    destruct (FirstOrder.generate_loop limit d limit
                (FirstOrder.GenState first first rng1)); cbn [bind];
      [discriminate | discriminate | congruence].
  - destruct (random_choice (filter (Capitalized.capitalized isupper) (keys d)) rng)
      as [[first rng1]|e|] eqn:Er; cbn [bind];
      [| discriminate | now apply random_choice_returns in Er].
    specialize (Hfuel first rng1).
    destruct (FirstOrder.generate_loop limit d limit
                (FirstOrder.GenState first first rng1)); cbn [bind];
      [discriminate | discriminate | congruence].
  - intros text.
    destruct (random_choice (keys d) rng) as [[first rng1]|e|] eqn:Er; cbn [bind];
      try discriminate.
    destruct (FirstOrder.generate_loop limit d limit
                (FirstOrder.GenState first first rng1)) as [st|e|] eqn:El;
      cbn [bind]; try discriminate.
    intros [= <-]. apply random_choice_In in Er. destruct Er as [Hin _].
    exact (first_order_seeded_count corpus d limit first rng1 st Hd Hin El).
  - intros text.
    destruct (random_choice (filter (Capitalized.capitalized isupper) (keys d)) rng)
      as [[first rng1]|e|] eqn:Er; cbn [bind]; try discriminate.
    destruct (FirstOrder.generate_loop limit d limit
                (FirstOrder.GenState first first rng1)) as [st|e|] eqn:El;
      cbn [bind]; try discriminate.
    intros [= <-]. apply random_choice_In in Er. destruct Er as [Hin _].
    apply filter_In in Hin. destruct Hin as [Hin _].
    exact (first_order_seeded_count corpus d limit first rng1 st Hd Hin El).
Qed.

Lemma first_order_text_length_witness :
  exists d,
    FirstOrder.collect_dict "the cat and the dog and" = Ok d /\
    word_count "dog and the dog" = Nat.max 4 1.
Proof.
  destruct (first_order_text_length ascii_isupper "the cat and the dog and" 4 pick_last)
    as (d & Hd & _ & _ & H & _).
  exists d. split; [exact Hd|]. apply H.
  vm_compute in Hd. injection Hd as <-. reflexivity.
Defined.

(** X19.  A corpus without a space is a single word and has no
    successor to record: the first-order [collect_dict] returns the empty
    dictionary, on which both first-order generators raise [IndexError]
    at the draw of the first word. *)
Theorem first_order_single_word (isupper : ascii -> bool) (corpus : string) (limit : nat) (rng : Rng) :
  space_free corpus = true ->
  FirstOrder.collect_dict corpus = Ok [] /\
  FirstOrder.generate_text [] limit rng = Raise IndexError /\
  Capitalized.generate_text isupper [] limit rng = Raise IndexError.
Proof.
  intros H. split; [|split; reflexivity].
  unfold FirstOrder.collect_dict. now rewrite (split_space_free corpus H).
Qed.

Lemma first_order_single_word_witness :
  FirstOrder.collect_dict "word" = Ok [].
Proof.
  apply (first_order_single_word ascii_isupper "word" 3 pick_last). reflexivity.
Defined.

(* ================================================================= *)
(** ** When the search returns *)

Lemma built_has_orders (words : list Token) (N : nat) (m : Model) (n : nat) :
  collect_dict words N = Ok m -> n <= N -> has_orders m n.
Proof.
  intros Hm Hn k Hk.
  destruct (collect_dict_spec words N) as (m' & E & _ & Hin & _).
  rewrite Hm in E. injection E as <-.
  destruct (Hin k) as (table & _ & Ht); [lia|]. now exists table.
Qed.

(** X20.  On a built model [get_next_word] has two outcomes only: it
    returns a token, having used the random source once, or it raises
    [KeyError]; [random.choice] never meets an empty list there. *)
Theorem get_next_word_outcomes (words : list Token) (N : nat) (m : Model)
  (key_id : Key) (min_length : nat) (rng : Rng) :
  collect_dict words N = Ok m ->
  (exists w, get_next_word m key_id min_length rng = Ok (w, advance rng)) \/
  get_next_word m key_id min_length rng = Raise KeyError.
Proof.
  intros Hm. apply backoff_loop_outcome.
  exact (built_lists_nonempty words N m Hm).
Qed.

Lemma get_next_word_outcomes_witness :
  (exists w, get_next_word model9 ["d"; "."] 1 pick_last = Ok (w, advance pick_last)) \/
  get_next_word model9 ["d"; "."] 1 pick_last = Raise KeyError.
Proof.
  apply (get_next_word_outcomes corpus9 2 model9). reflexivity.
Defined.

Lemma backoff_loop_last_token (word_pairs : Model) (min_length : nat) (rng : Rng)
  (table1 : Table) (following1 : list Token) (passes : nat) :
  lists_nonempty word_pairs ->
  forall key_id : Key,
    1 <= List.length key_id <= S passes ->
    has_orders word_pairs (List.length key_id) ->
    model_get 1 word_pairs = Some table1 ->
    table_get (trailing 1 key_id) table1 = Some following1 ->
    exists w, backoff_loop passes word_pairs key_id min_length rng
              = Ok (w, advance rng).
Proof.
  intros Hne. induction passes as [|passes IH]; intros key_id Hlen Hord H1 Hf1;
    cbn [backoff_loop].
  - assert (Hk : trailing 1 key_id = key_id).
    { replace 1 with (List.length key_id) at 1 by lia. apply trailing_all. }
    rewrite Hk in Hf1. unfold backoff_last, dict_item.
    replace (List.length key_id) with 1 by lia.
    unfold model_get in H1. rewrite H1. cbn [bind].
    unfold table_get in Hf1. rewrite Hf1. cbn [bind].
    destruct (random_choice_nonempty following1 rng) as (w & Hw & _).
    + exact (Hne 1 table1 key_id following1 H1 Hf1).
    + now exists w.
  - unfold backoff_pass.
    destruct (Hord (List.length key_id)) as (table & Ht); [lia|]. rewrite Ht.
    assert (Hs := shorten_length key_id (proj1 Hlen)).
    assert (Hnext : exists w,
               backoff_loop passes word_pairs (shorten key_id) min_length rng
               = Ok (w, advance rng)).
    { apply IH.
      - lia.
      - intros k Hk. apply Hord. lia.
      - exact H1.
      - rewrite trailing_shorten by lia. exact Hf1. }
    destruct (table_get key_id table) as [following|] eqn:Ef; [|exact Hnext].
    destruct (min_length <=? List.length following); [|exact Hnext].
    destruct (random_choice_nonempty following rng) as (w & Hw & _).
    + exact (Hne _ _ _ _ Ht Ef).
    + now exists w.
Qed.

(** X21.  On a built model the search returns a token, whatever
    [min_length] and the random source, for every context of a length in
    [1..N] whose last token is a key of the order-1 table: at the latest
    the statement after the loop finds that token's successors. *)
Theorem get_next_word_returns_when_last_token_known (words : list Token)
  (N : nat) (m : Model) (table1 : Table) (key_id : Key)
  (min_length : nat) (rng : Rng) :
  collect_dict words N = Ok m ->
  1 <= List.length key_id <= N ->
  model_get 1 m = Some table1 ->
  In (trailing 1 key_id) (keys table1) ->
  exists w, get_next_word m key_id min_length rng = Ok (w, advance rng).
Proof.
  intros Hm Hlen H1 Hk.
  apply (dict_get_keys Key_eq_dec) in Hk. destruct Hk as (following1 & Hf1).
  unfold get_next_word.
  apply (backoff_loop_last_token m min_length rng table1 following1).
  - exact (built_lists_nonempty words N m Hm).
  - lia.
  - apply (built_has_orders words N m _ Hm). lia.
  - exact H1.
  - exact Hf1.
Qed.

Lemma get_next_word_returns_when_last_token_known_witness :
  exists w, get_next_word model9 ["d"; "."] 5 pick_last = Ok (w, advance pick_last).
Proof.
  apply (get_next_word_returns_when_last_token_known corpus9 2 model9 table9_1).
  - reflexivity.
  - simpl. lia.
  - reflexivity.
  - right. right. right. left. reflexivity.
Defined.

(* ================================================================= *)
(** ** The second-order generator *)

Lemma second_order_loop_returns (words : Table) (limit : nat) (fuel : nat) :
  forall st,
    limit <= fuel + word_count (markov_text st) ->
    SecondOrder.generate_loop fuel words limit st <> OutOfFuel.
Proof.
  induction fuel as [|fuel IH]; intros st Hfuel; cbn [SecondOrder.generate_loop].
  - destruct (word_count (markov_text st) <? limit) eqn:E; [|discriminate].
    apply Nat.ltb_lt in E. lia.
  - destruct (word_count (markov_text st) <? limit) eqn:E; [|discriminate].
    unfold dict_item.
    destruct (dict_get Key_eq_dec (first_key st) words) as [following|];
      cbn [bind]; [|discriminate].
    destruct (random_choice following (source st)) as [[w rng']|e|] eqn:G;
      cbn [bind].
    + apply IH. cbn [markov_text].
      pose proof (word_count_grows (markov_text st) w). lia.
    + discriminate.
    + now apply random_choice_returns in G.
Qed.

(** X22.  The second-order generator counts words exactly.  For the
    dictionary that the second-order [collect_dict] builds from any
    corpus, and any limit: [generate_text] of "Second-order Markov
    chain" does not run forever, and a text it returns has exactly
    [max limit 2] words, as [split(' ')] counts them, the first two being
    a key of the dictionary. *)
Theorem second_order_text_length (isupper : ascii -> bool) (corpus : string) (limit : nat) (rng : Rng) :
  exists table,
    SecondOrder.collect_dict corpus = Ok table /\
    SecondOrder.generate_text isupper table limit rng <> OutOfFuel /\
    forall text,
      SecondOrder.generate_text isupper table limit rng = Ok text ->
      word_count text = Nat.max limit 2 /\
      In (firstn 2 (split space text)) (keys table).
Proof.
  set (words := split space corpus).
  assert (Hw : forallb space_free words = true) by apply split_pieces_space_free.
  destruct (collect_dict_spec words 2) as (m & Hm & _ & Hin & _).
  destruct (Hin 2) as (table & Ht & Hg); [lia|].
  exists table. split.
  { unfold SecondOrder.collect_dict. fold words. now rewrite second_order_table. }
  assert (Hkeys : forall key, In key (keys table) ->
                    List.length key = 2 /\ forallb space_free key = true).
  { intros key Hk. exact (built_model_keys words 2 2 m table key Hw Hm Hg Hk). }
  assert (Hclean := built_model_clean words 2 m Hw Hm).
  unfold SecondOrder.generate_text, SecondOrder.generate_state.
  rewrite filter_keys_spec.
  2: { intros key Hk ->. destruct (Hkeys [] Hk) as [Hl _]. discriminate Hl. }
  cbn [bind].
  destruct (random_choice (filter (starts_upper isupper) (keys table)) rng)
    as [[seed rng1]|e|] eqn:Er; cbn [bind].
  2: { split; [discriminate | intros text; discriminate]. }
  2: { now apply random_choice_returns in Er. }
  apply random_choice_In in Er. destruct Er as [Hseed _].
  apply filter_In in Hseed. destruct Hseed as [Hseed _].
  destruct (Hkeys seed Hseed) as [Hlen Hsf].
  assert (Hne : seed <> []) by (intros ->; discriminate Hlen).
  assert (Hret : SecondOrder.generate_loop limit table limit
                   (GenState seed (join " " seed) rng1) <> OutOfFuel).
  { apply second_order_loop_returns. lia. }
  destruct (SecondOrder.generate_loop limit table limit
              (GenState seed (join " " seed) rng1)) as [st|e|] eqn:El;
    cbn [bind]; [| split; [discriminate | intros text; discriminate] | congruence].
  split; [discriminate|]. intros text [= <-].
  apply (second_order_loop_agrees words 2 m table limit 1 Hm Hg (le_n 1)) in El.
  destruct (generate_loop_tokens m limit 1 Hclean limit seed seed rng1 st Hne Hsf El)
    as (more & H1 & H2 & H3 & _).
  assert (Hsplit : split space (markov_text st) = seed ++ more).
  { rewrite H1. apply split_join; [now destruct seed | exact H2]. }
  split.
  - unfold word_count. rewrite Hsplit. unfold Key, Token in *.
    rewrite H3, Hlen. reflexivity.
  - rewrite Hsplit. unfold Key, Token in *.
    rewrite firstn_app, <- Hlen, firstn_all, Nat.sub_diag. cbn [firstn].
    now rewrite app_nil_r.
Qed.

Lemma second_order_text_length_witness :
  word_count "A b d ." = Nat.max 4 2.
Proof.
  destruct (second_order_text_length ascii_isupper "A b c . A b d ." 4 pick_last)
    as (table & Hd & _ & H).
  apply H. vm_compute in Hd. injection Hd as <-. reflexivity.
Defined.
